(** * gocsv: a shallow embedding of csv.go and the properties of its
      cell scanner, row reader and cell writer.

    The development follows the layout of [csv.go]: the configuration, the
    reader ([parseQuoted], [parseCell], [ReadRow], [ReadAll]) and the writer
    ([needsQuotes], [writeCell], [WriteRow], [WriteAll]).  Go strings are
    byte sequences, the byte source is an [io.ByteReader] over a finite
    stream, and the sink is an in-memory buffer. *)

From Stdlib Require Import Ascii String.
From Stdlib Require Import List ZArith Lia Bool Arith.
From Equations Require Import Equations.
Import ListNotations.
Local Open Scope list_scope.

(* ===================================================================== *)
(** ** Bytes, strings and errors                                          *)
(* ===================================================================== *)

(** A Go [byte]; a Go [string] is an immutable sequence of bytes. *)
Definition byte := ascii.
Definition gostring := list byte.

(** A Go string literal. *)
Definition str (s : string) : gostring := list_ascii_of_string s.

Definition NUL    : byte := "000"%char.
Definition TAB    : byte := "009"%char.
Definition LF     : byte := "010"%char.
Definition CR     : byte := "013"%char.
Definition SPACE  : byte := "032"%char.
Definition DQUOTE : byte := "034"%char.
Definition COMMA  : byte := "044"%char.

(** The [error] values that flow through the package.  A Go [error] that
    may be [nil] is an [option error]. *)
Inductive error : Type :=
| EOF                        (* io.EOF *)
| ErrUnexpectedEOF           (* io.ErrUnexpectedEOF *)
| ErrExpected (got : byte)   (* errors.New("expected , got " + string(int(b))) *)
| ErrSource (code : nat).    (* any other failure reported by the byte source *)

Definition is_EOF (e : error) : bool :=
  match e with EOF => true | _ => false end.

Definition is_nil (e : option error) : bool :=
  match e with None => true | Some _ => false end.

(** [e == io.EOF] for a possibly-nil [e]. *)
Definition eq_EOF (e : option error) : bool :=
  match e with Some x => is_EOF x | None => false end.

(* ===================================================================== *)
(** ** Configuration                                                      *)
(* ===================================================================== *)

Record Config : Type := mkConfig {
  TrimSpaces : bool;
  FieldDelim : byte
}.

Definition DefaultConfig : Config :=
  {| TrimSpaces := false; FieldDelim := COMMA |}.

(* ===================================================================== *)
(** ** The byte source                                                    *)
(* ===================================================================== *)

(** An [io.ByteReader] of the kind of [strings.Reader] and
    [bufio.Reader], the sources of the package's [ReadAll] and of its
    tests: a finite stream given by the bytes not read yet and the error
    every read past them reports ([io.EOF] for [strings.Reader] and for a
    [bufio.Reader] over one), the byte that comes with such a read being
    the zero byte.  An [io.ByteReader] that hands out another byte with
    its error is outside this model. *)
Record ByteReader : Type := mkByteReader {
  pending : gostring;
  at_end  : error
}.

Definition strings_NewReader (s : gostring) : ByteReader :=
  {| pending := s; at_end := EOF |}.

(** [bufio.NewReader] only adds buffering. *)
Definition bufio_NewReader (rd : ByteReader) : ByteReader := rd.

(** [ReadByte] on the pending bytes [p] of a source ending with [fin]:
    the byte read, the error, the bytes left; a failed read returns the
    zero byte, as [strings.Reader] and [bufio.Reader] do. *)
Definition read_byte (fin : error) (p : gostring)
  : byte * option error * gostring :=
  match p with
  | b :: p' => (b, None, p')
  | [] => (NUL, Some fin, [])
  end.

Definition ReadByte (rd : ByteReader) : byte * option error * ByteReader :=
  let '(b, e, p) := read_byte (at_end rd) (pending rd) in
  (b, e, {| pending := p; at_end := at_end rd |}).

(* ===================================================================== *)
(** ** Reader                                                             *)
(* ===================================================================== *)

Record Reader : Type := mkReader {
  tmpbuf  : gostring;
  br      : ByteReader;
  rConfig : Config
}.

Definition NewReader (rd : ByteReader) : Reader :=
  {| tmpbuf := []; br := rd; rConfig := DefaultConfig |}.

Definition with_source (r : Reader) (buf p : gostring) : Reader :=
  {| tmpbuf := buf;
     br := {| pending := p; at_end := at_end (br r) |};
     rConfig := rConfig r |}.

(** [for b == ' ' && e == nil { b, e = r.br.ReadByte() }], from the state
    [(b, e)] of the last read and the pending bytes [p]. *)
Fixpoint eat_spaces (fin : error) (b : byte) (e : option error) (p : gostring)
  : byte * option error * gostring :=
  if (b =? SPACE)%char && is_nil e then
    match p with
    | b' :: p' => eat_spaces fin b' None p'
    | [] => (NUL, Some fin, [])
    end
  else (b, e, p).

(** The [for] loop of [parseQuoted]; [buf] is [r.tmpbuf].  Each [match] on
    the pending bytes is one [r.br.ReadByte()]. *)
Fixpoint parseQuoted_loop (fin : error) (buf : gostring) (p : gostring)
  : gostring * byte * option error * gostring * gostring :=
  match p with
  | [] =>
      (* e != nil: io.EOF becomes io.ErrUnexpectedEOF *)
      ([], NUL, Some (if is_EOF fin then ErrUnexpectedEOF else fin), buf, [])
  | b :: p1 =>
      if (b =? DQUOTE)%char then
        match p1 with
        | b2 :: p2 =>
            if (b2 =? DQUOTE)%char then
              (* two double-quotes parse as one *)
              parseQuoted_loop fin (buf ++ [DQUOTE]) p2
            else
              (* eat trailing whitespace *)
              let '(b3, _, p3) := eat_spaces fin b2 None p2 in
              (buf, b3, None, buf, p3)
        | [] =>
            (* the read after the quote failed: b = 0, e != nil *)
            let '(b3, _, p3) := eat_spaces fin NUL (Some fin) [] in
            (buf, b3, None, buf, p3)
        end
      else
        (* anything not a quote is just copied over *)
        parseQuoted_loop fin (buf ++ [b]) p1
  end.

Definition parseQuoted (r : Reader) : gostring * byte * option error * Reader :=
  let '(s, b, e, buf, p) :=
    parseQuoted_loop (at_end (br r)) [] (pending (br r)) in
  (s, b, e, with_source r buf p).

(** The scanning loop of [parseCell] in unquoted mode:
    [for e == nil && b != '\n' && b != r.Config.FieldDelim { ... }]. *)
Fixpoint scan_unquoted (cfg : Config) (fin : error)
    (trailing_spaces : nat) (last : byte) (buf : gostring)
    (b : byte) (e : option error) (p : gostring)
  : nat * byte * gostring * byte * option error * gostring :=
  if is_nil e && negb (b =? LF)%char && negb (b =? FieldDelim cfg)%char then
    let trailing_spaces :=
      if TrimSpaces cfg then
        if (b =? SPACE)%char || (b =? CR)%char then S trailing_spaces else 0
      else trailing_spaces in
    let buf := buf ++ [b] in
    let last := b in
    match p with
    | b' :: p' => scan_unquoted cfg fin trailing_spaces last buf b' None p'
    | [] => (trailing_spaces, last, buf, NUL, Some fin, [])
    end
  else (trailing_spaces, last, buf, b, e, p).

Definition parseCell (r : Reader) : gostring * byte * option error * Reader :=
  let cfg := rConfig r in
  let fin := at_end (br r) in
  let '(b, e, p) := read_byte fin (pending (br r)) in
  let '(b, e, p) :=
    if TrimSpaces cfg then eat_spaces fin b e p (* eat leading whitespace *)
    else (b, e, p) in
  if eq_EOF e then ([], NUL, e, with_source r [] p)
  else if (b =? DQUOTE)%char && is_nil e then parseQuoted (with_source r [] p)
  else
    let '(trailing_spaces, last, buf, b, e, p) :=
      scan_unquoted cfg fin 0 NUL [] b e p in
    if negb (is_nil e) && negb (eq_EOF e) then ([], NUL, e, with_source r buf p)
    else
      let trailing_spaces :=
        if (last =? CR)%char && (b =? LF)%char && (trailing_spaces =? 0)
        then 1 else trailing_spaces in
      (firstn (length buf - trailing_spaces) buf, b, None, with_source r buf p).

(** One pass through the body of the [for] loop of [ReadRow]. *)
Inductive row_step : Type :=
| RowReturn (result : list gostring) (e : option error) (r : Reader)
| RowContinue (result : list gostring) (r : Reader).

Definition ReadRow_body (r : Reader) (result : list gostring) : row_step :=
  let '(c, b, e, r) := parseCell r in
  match e with
  | Some err =>
      let result :=
        if is_EOF err && (0 <? length result) then result ++ [c] else result in
      RowReturn result e r
  | None =>
      let result := result ++ [c] in
      if (b =? NUL)%char then RowReturn result None r
      else
        (* Line endings may be '\r\n', so eat '\r'. *)
        let '(b, e, rd) :=
          if (b =? CR)%char then ReadByte (br r) else (b, None, br r) in
        let r := {| tmpbuf := tmpbuf r; br := rd; rConfig := rConfig r |} in
        match e with
        | Some _ => RowReturn [] e r
        | None =>
            if (b =? FieldDelim (rConfig r))%char then RowContinue result r
            else if (b =? LF)%char then RowReturn result None r
            else RowReturn [] (Some (ErrExpected b)) r
        end
  end.

(** *** Every successful cell parse consumes input *)

Lemma eat_spaces_length fin b e p :
  length (snd (eat_spaces fin b e p)) <= length p.
Proof.
  revert b e; induction p as [|x p IH]; intros b e; simpl.
  - destruct ((b =? SPACE)%char && is_nil e); simpl; lia.
  - destruct ((b =? SPACE)%char && is_nil e); simpl; [|lia].
    specialize (IH x None); lia.
Qed.

Lemma parseQuoted_loop_length fin p : forall buf,
  length (snd (parseQuoted_loop fin buf p)) <= length p.
Proof.
  assert (H : forall n q, length q <= n -> forall buf,
             length (snd (parseQuoted_loop fin buf q)) <= length q).
  { induction n as [|n IH]; intros q Hq buf.
    - destruct q; simpl in *; lia.
    - destruct q as [|b [|b2 p2]]; simpl in *; [lia| |].
      + destruct (b =? DQUOTE)%char; simpl; lia.
      + destruct (b =? DQUOTE)%char.
        * destruct (b2 =? DQUOTE)%char.
          -- specialize (IH p2 ltac:(lia) (buf ++ [DQUOTE])). lia.
          -- pose proof (eat_spaces_length fin b2 None p2) as Hs.
             destruct (eat_spaces fin b2 None p2) as [[b3 e3] p3]; simpl in *; lia.
        * specialize (IH (b2 :: p2) ltac:(simpl; lia) (buf ++ [b])).
          simpl in IH. lia. }
  intros buf. apply (H (length p)). lia.
Qed.

Lemma scan_unquoted_length cfg fin p : forall t l buf b e,
  length (snd (scan_unquoted cfg fin t l buf b e p)) <= length p.
Proof.
  induction p as [|x p IH]; intros t l buf b e; simpl.
  - destruct (is_nil e && negb (b =? LF)%char && negb (b =? FieldDelim cfg)%char);
      simpl; lia.
  - destruct (is_nil e && negb (b =? LF)%char && negb (b =? FieldDelim cfg)%char);
      simpl; [|lia].
    etransitivity; [apply IH | lia].
Qed.

Lemma parseCell_consumes r c b r' :
  parseCell r = (c, b, None, r') ->
  length (pending (br r')) < length (pending (br r)).
Proof.
  unfold parseCell. destruct (pending (br r)) as [|x p]; simpl.
  - (* nothing to read: every path reports the source's error *)
    destruct (TrimSpaces (rConfig r)); simpl;
      destruct (is_EOF (at_end (br r))) eqn:E; simpl; try discriminate;
      rewrite ?E; simpl; discriminate.
  - match goal with |- context [if TrimSpaces ?c then ?a else ?b] =>
      destruct (if TrimSpaces c then a else b) as [[b1 e1] p1] eqn:E1 end.
    assert (Hs : length p1 <= length p).
    { destruct (TrimSpaces (rConfig r)).
      - pose proof (eat_spaces_length (at_end (br r)) x None p) as Hl.
        rewrite E1 in Hl; simpl in Hl; lia.
      - inversion E1; subst; lia. }
    destruct (eq_EOF e1) eqn:Ee;
      [intros H; inversion H; subst; discriminate|].
    destruct ((b1 =? DQUOTE)%char && is_nil e1).
    + unfold parseQuoted; simpl.
      pose proof (parseQuoted_loop_length (at_end (br r)) p1 []) as Hq.
      destruct (parseQuoted_loop (at_end (br r)) [] p1) as [[[[s qb] qe] qbuf] qp].
      intros H; inversion H; subst; simpl in *; lia.
    + pose proof (scan_unquoted_length (rConfig r) (at_end (br r)) p1 0 NUL [] b1 e1) as Hu.
      destruct (scan_unquoted (rConfig r) (at_end (br r)) 0 NUL [] b1 e1 p1)
        as [[[[[t l] buf] ub] ue] up].
      destruct (negb (is_nil ue) && negb (eq_EOF ue)); intros H;
        inversion H; subst; simpl in *; lia.
Qed.

Lemma ReadRow_body_continue r result res r' :
  ReadRow_body r result = RowContinue res r' ->
  length (pending (br r')) < length (pending (br r)).
Proof.
  unfold ReadRow_body.
  destruct (parseCell r) as [[[c b] e] r1] eqn:Hc.
  destruct e as [err|]; [discriminate|].
  apply parseCell_consumes in Hc.
  destruct (b =? NUL)%char; [discriminate|].
  destruct (b =? CR)%char.
  - unfold ReadByte. destruct (pending (br r1)) as [|y q] eqn:Hq; simpl; [discriminate|].
    destruct (y =? FieldDelim (rConfig r1))%char.
    + intros H; inversion H; subst; simpl in *. try rewrite Hq in Hc; simpl in Hc; lia.
    + destruct (y =? LF)%char; discriminate.
  - simpl. destruct (b =? FieldDelim (rConfig r1))%char.
    + intros H; inversion H; subst; simpl in *; lia.
    + destruct (b =? LF)%char; discriminate.
Qed.

(** [inspect] keeps the equation of a [with] clause in the context. *)
Definition inspect {A} (a : A) : {b | a = b} := exist _ a eq_refl.

(** The [for] loop of [ReadRow]: it ends because each pass that continues
    has consumed input. *)
Equations? ReadRow_loop (r : Reader) (result : list gostring)
  : list gostring * option error * Reader
  by wf (length (pending (br r))) lt :=
  ReadRow_loop r result with inspect (ReadRow_body r result) := {
    | exist _ (RowReturn res e r') _ => (res, e, r')
    | exist _ (RowContinue res r') H => ReadRow_loop r' res }.
Proof. eapply ReadRow_body_continue; eassumption. Qed.

(** Reads a single row into a []string. *)
Definition ReadRow (r : Reader) : list gostring * option error * Reader :=
  ReadRow_loop r [].

(** One pass through the body of the [for] loop of [Reader.ReadAll]. *)
Inductive all_step : Type :=
| AllReturn (rows : list (list gostring)) (e : option error) (r : Reader)
| AllContinue (rows : list (list gostring)) (r : Reader).

Definition ReadAll_body (r : Reader) (rows : list (list gostring)) : all_step :=
  let '(row, e, r) := ReadRow r in
  match e with
  | Some err => if is_EOF err then AllReturn rows None r (* break *)
                else AllReturn [] e r
  | None => AllContinue (rows ++ [row]) r
  end.

Lemma ReadRow_loop_eq r result :
  ReadRow_loop r result =
  match ReadRow_body r result with
  | RowReturn res e r' => (res, e, r')
  | RowContinue res r' => ReadRow_loop r' res
  end.
Proof.
  rewrite ReadRow_loop_equation_1.
  destruct (inspect (ReadRow_body r result)) as [[res e r'|res r'] H]; simpl;
    rewrite H; reflexivity.
Qed.

Lemma ReadRow_body_return_ok r result res r' :
  ReadRow_body r result = RowReturn res None r' ->
  length (pending (br r')) < length (pending (br r)).
Proof.
  unfold ReadRow_body.
  destruct (parseCell r) as [[[c b] e] r1] eqn:Hc.
  destruct e as [err|]; [discriminate|].
  apply parseCell_consumes in Hc.
  destruct (b =? NUL)%char; [intros H; inversion H; subst; exact Hc|].
  destruct (b =? CR)%char.
  - unfold ReadByte. destruct (pending (br r1)) as [|y q] eqn:Hq; simpl; [discriminate|].
    destruct (y =? FieldDelim (rConfig r1))%char; [discriminate|].
    destruct (y =? LF)%char; [|discriminate].
    intros H; inversion H; subst; simpl in *. try rewrite Hq in Hc; simpl in Hc; lia.
  - simpl. destruct (b =? FieldDelim (rConfig r1))%char; [discriminate|].
    destruct (b =? LF)%char; [|discriminate].
    intros H; inversion H; subst; simpl in *; lia.
Qed.

Lemma ReadRow_loop_consumes r : forall result res r',
  ReadRow_loop r result = (res, None, r') ->
  length (pending (br r')) < length (pending (br r)).
Proof.
  remember (length (pending (br r))) as n eqn:Hn.
  revert r Hn. induction n as [n IH] using lt_wf_ind.
  intros r Hn result res r'. rewrite ReadRow_loop_eq.
  destruct (ReadRow_body r result) as [res1 e1 r1|res1 r1] eqn:Hb.
  - intros H; inversion H; subst.
    apply ReadRow_body_return_ok in Hb. exact Hb.
  - apply ReadRow_body_continue in Hb. intros H.
    apply (IH (length (pending (br r1)))) in H; [lia | lia | reflexivity].
Qed.

Lemma ReadAll_body_continue r rows rows' r' :
  ReadAll_body r rows = AllContinue rows' r' ->
  length (pending (br r')) < length (pending (br r)).
Proof.
  unfold ReadAll_body, ReadRow.
  destruct (ReadRow_loop r []) as [[row e] r1] eqn:Hr.
  destruct e as [err|].
  - destruct (is_EOF err); discriminate.
  - intros H; inversion H; subst. eapply ReadRow_loop_consumes; eassumption.
Qed.

(** The [for] loop of [Reader.ReadAll]. *)
Equations? ReadAll_loop (r : Reader) (rows : list (list gostring))
  : list (list gostring) * option error * Reader
  by wf (length (pending (br r))) lt :=
  ReadAll_loop r rows with inspect (ReadAll_body r rows) := {
    | exist _ (AllReturn res e r') _ => (res, e, r')
    | exist _ (AllContinue res r') H => ReadAll_loop r' res }.
Proof. eapply ReadAll_body_continue; eassumption. Qed.

Lemma ReadAll_loop_eq r rows :
  ReadAll_loop r rows =
  match ReadAll_body r rows with
  | AllReturn res e r' => (res, e, r')
  | AllContinue res r' => ReadAll_loop r' res
  end.
Proof.
  rewrite ReadAll_loop_equation_1.
  destruct (inspect (ReadAll_body r rows)) as [[res e r'|res r'] H]; simpl;
    rewrite H; reflexivity.
Qed.

(** [func (r *Reader) ReadAll() ([][]string, error)]; [rows] starts as
    [make([][]string, 0, 32)]. *)
Definition Reader_ReadAll (r : Reader)
  : list (list gostring) * option error * Reader :=
  ReadAll_loop r [].

(** [func ReadAll(r io.Reader) ([][]string, error)]. *)
Definition ReadAll (rd : ByteReader) : list (list gostring) * option error :=
  fst (Reader_ReadAll (NewReader (bufio_NewReader rd))).

(** *** The reader on the inputs of csv_test.go *)

Definition cell_of (x : gostring * byte * option error * Reader)
  : gostring * option error := (fst (fst (fst x)), snd (fst x)).

Definition row_of {A : Type} (x : A * option error * Reader)
  : A * option error := fst x.

Definition str2Reader (s : gostring) : Reader :=
  NewReader (strings_NewReader s).

Definition with_config (r : Reader) (cfg : Config) : Reader :=
  {| tmpbuf := tmpbuf r; br := br r; rConfig := cfg |}.

Example TestParseCell :
  map (fun s => cell_of (parseCell (str2Reader s)))
    [ str "   meh "; str "hi"; str "1 2 3 "; str "oh,";
      str "oh" ++ [LF] ++ str "no";
      [DQUOTE] ++ str "Hi, mom" ++ [DQUOTE];
      [DQUOTE] ++ str "Hi, " ++ [DQUOTE; DQUOTE] ++ str "mr"
        ++ [DQUOTE; DQUOTE] ++ str " silly" ++ [DQUOTE];
      [DQUOTE] ++ str "Whee" ++ [DQUOTE] ++ str "  ," ]
  = [ (str "   meh ", None); (str "hi", None); (str "1 2 3 ", None);
      (str "oh", None); (str "oh", None); (str "Hi, mom", None);
      (str "Hi, " ++ [DQUOTE] ++ str "mr" ++ [DQUOTE] ++ str " silly", None);
      (str "Whee", None) ].
Proof. reflexivity. Qed.

Example TestParseCellEof :
  cell_of (parseCell (str2Reader [])) = ([], Some EOF).
Proof. reflexivity. Qed.

Example TestReadRow :
  map (fun '(s, trim) =>
         row_of (ReadRow (with_config (str2Reader s) (mkConfig trim COMMA))))
    [ (str "one,two,three", false);
      (str " one,   two ,three    " ++ [LF], true);
      (str ",,", true);
      ([DQUOTE] ++ str "foo " ++ [DQUOTE] ++ str ",bar", false);
      ([], true); (str " ", true) ]
  = [ ([str "one"; str "two"; str "three"], None);
      ([str "one"; str "two"; str "three"], None);
      ([[]; []; []], Some EOF);
      ([str "foo "; str "bar"], None);
      ([], Some EOF); ([], Some EOF) ].
Proof. reflexivity. Qed.

Example TestReadRowMultiple :
  let r0 := str2Reader (str "a," ++ [DQUOTE] ++ str "b" ++ [DQUOTE; LF; DQUOTE]
                          ++ str "c" ++ [DQUOTE] ++ str "  ,d") in
  let '(row1, e1, r1) := ReadRow r0 in
  let '(row2, e2, r2) := ReadRow r1 in
  let '(row3, e3, _) := ReadRow r2 in
  [(row1, e1); (row2, e2); (row3, e3)]
  = [([str "a"; str "b"], None); ([str "c"; str "d"], None); ([], Some EOF)].
Proof. reflexivity. Qed.

Example TestReadRowEof :
  let '(_, _, r1) := ReadRow (str2Reader (str "one,two" ++ [LF])) in
  row_of (ReadRow r1) = ([], Some EOF).
Proof. reflexivity. Qed.

Example TestReadRowNoTrim :
  row_of (ReadRow (str2Reader
    (str "  a  ,  b  ," ++ [DQUOTE] ++ str " c " ++ [DQUOTE] ++ str " ")))
  = ([str "  a  "; str "  b  "; str " c "], None).
Proof. reflexivity. Qed.

Example TestReadAllTrim :
  row_of (Reader_ReadAll (with_config (str2Reader
    (str "whee,foo,bar" ++ [LF] ++ str " one,two,three,four" ++ [LF]
       ++ [DQUOTE] ++ str "foo " ++ [DQUOTE] ++ str ", bar, what" ++ [LF]
       ++ str "meh,beh, keh" ++ [LF]))
    (mkConfig true COMMA)))
  = ([ [str "whee"; str "foo"; str "bar"];
       [str "one"; str "two"; str "three"; str "four"];
       [str "foo "; str "bar"; str "what"];
       [str "meh"; str "beh"; str "keh"] ], None).
Proof. reflexivity. Qed.

Example TestReadAllLineEnding :
  ReadAll (strings_NewReader
    (str "one,two" ++ [CR; LF] ++ str "three," ++ [DQUOTE] ++ str "four"
       ++ [DQUOTE; CR; LF] ++ str "5,6"))
  = ([[str "one"; str "two"]; [str "three"; str "four"]; [str "5"; str "6"]],
     None).
Proof. reflexivity. Qed.

Example TestReadAllNoTrim :
  row_of (Reader_ReadAll (str2Reader
    (str "  a  ,  b  " ++ [CR; LF] ++ str "  c,  d ")))
  = ([[str "  a  "; str "  b  "]; [str "  c"; str "  d "]], None).
Proof. reflexivity. Qed.

(* ===================================================================== *)
(** ** Ranging over a string                                              *)
(* ===================================================================== *)

(** [for _, c := range s] walks the runes of [s], not its bytes: each
    pass decodes one UTF-8 sequence, and a byte that starts no valid
    sequence yields [utf8.RuneError] with width 1. *)
Definition rune := Z.

Definition RuneError : rune := 0xFFFD%Z.

Definition byte_val (b : byte) : Z := Z.of_N (N_of_ascii b).

(** [rune(b)] for a byte [b]. *)
Definition rune_of_byte (b : byte) : rune := byte_val b.

Definition between (lo hi : Z) (b : byte) : bool :=
  ((lo <=? byte_val b) && (byte_val b <=? hi))%Z.

(** A continuation byte, 10xxxxxx. *)
Definition is_cont (b : byte) : bool := between 0x80 0xBF b.

Definition low_bits (mask : Z) (b : byte) : Z := Z.land (byte_val b) mask.

(** The accepted range of the second byte, by the first one. *)
Definition second_lo (b0 : byte) : Z :=
  if (byte_val b0 =? 0xE0)%Z then 0xA0%Z
  else if (byte_val b0 =? 0xF0)%Z then 0x90%Z else 0x80%Z.

Definition second_hi (b0 : byte) : Z :=
  if (byte_val b0 =? 0xED)%Z then 0x9F%Z
  else if (byte_val b0 =? 0xF4)%Z then 0x8F%Z else 0xBF%Z.

(** [utf8.DecodeRuneInString]: the rune at the head of [s] and its width
    in bytes. *)
Definition DecodeRuneInString (s : gostring) : rune * nat :=
  match s with
  | [] => (RuneError, 0)
  | b0 :: s1 =>
      if (byte_val b0 <? 0x80)%Z then (byte_val b0, 1)
      else if between 0xC2 0xDF b0 then
        match s1 with
        | b1 :: _ =>
            if is_cont b1 then
              (Z.lor (Z.shiftl (low_bits 0x1F b0) 6) (low_bits 0x3F b1), 2)
            else (RuneError, 1)
        | _ => (RuneError, 1)
        end
      else if between 0xE0 0xEF b0 then
        match s1 with
        | b1 :: b2 :: _ =>
            if between (second_lo b0) (second_hi b0) b1 && is_cont b2 then
              (Z.lor (Z.shiftl (low_bits 0x0F b0) 12)
                 (Z.lor (Z.shiftl (low_bits 0x3F b1) 6) (low_bits 0x3F b2)), 3)
            else (RuneError, 1)
        | _ => (RuneError, 1)
        end
      else if between 0xF0 0xF4 b0 then
        match s1 with
        | b1 :: b2 :: b3 :: _ =>
            if between (second_lo b0) (second_hi b0) b1
               && is_cont b2 && is_cont b3 then
              (Z.lor (Z.shiftl (low_bits 0x07 b0) 18)
                 (Z.lor (Z.shiftl (low_bits 0x3F b1) 12)
                    (Z.lor (Z.shiftl (low_bits 0x3F b2) 6) (low_bits 0x3F b3))),
               4)
            else (RuneError, 1)
        | _ => (RuneError, 1)
        end
      else (RuneError, 1)
  end.

(** The runes [range s] yields; [skip] counts the bytes of the sequence
    decoded last that are still to be stepped over. *)
Fixpoint range_from (skip : nat) (s : gostring) : list rune :=
  match s with
  | [] => []
  | _ :: s' =>
      match skip with
      | S k => range_from k s'
      | O => let '(c, width) := DecodeRuneInString s in
             c :: range_from (width - 1) s'
      end
  end.

Definition range_string (s : gostring) : list rune := range_from 0 s.

(* ===================================================================== *)
(** ** Writer                                                             *)
(* ===================================================================== *)

(** The writer over an in-memory sink ([bytes.Buffer]): [out] holds the
    bytes written so far, and no write fails. *)
Record Writer : Type := mkWriter {
  out     : gostring;
  wConfig : Config
}.

Definition NewWriter (sink : gostring) : Writer :=
  {| out := sink; wConfig := DefaultConfig |}.

Definition WriteByte (w : Writer) (b : byte) : option error * Writer :=
  (None, {| out := out w ++ [b]; wConfig := wConfig w |}).

Definition WriteString (w : Writer) (s : gostring) : option error * Writer :=
  (None, {| out := out w ++ s; wConfig := wConfig w |}).

Definition Flush (w : Writer) : option error * Writer := (None, w).

(** [e = op; if e != nil { return }] followed by the rest of the function. *)
Definition and_then (x : option error * Writer)
    (k : Writer -> option error * Writer) : option error * Writer :=
  match x with
  | (Some e, w) => (Some e, w)
  | (None, w) => k w
  end.

Definition needsQuotes (cfg : Config) (s : gostring) : bool :=
  if (0 <? length s)
     && ((hd NUL s =? SPACE)%char || (last s NUL =? SPACE)%char)
  then true
  else
    existsb (fun c : rune =>
               (c =? rune_of_byte LF)%Z || (c =? rune_of_byte DQUOTE)%Z
               || (c =? rune_of_byte TAB)%Z
               || (c =? rune_of_byte (FieldDelim cfg))%Z)
            (range_string s).

(** [for i := 0; i < len(cell); i++] of [writeCell]. *)
Fixpoint writeCell_loop (w : Writer) (cell : gostring) : option error * Writer :=
  match cell with
  | [] => (None, w)
  | b :: rest =>
      and_then
        (if (b =? DQUOTE)%char then WriteString w [DQUOTE; DQUOTE]
         else WriteByte w b)
        (fun w => writeCell_loop w rest)
  end.

Definition writeCell (w : Writer) (cell : gostring) : option error * Writer :=
  if needsQuotes (wConfig w) cell then
    and_then (WriteByte w DQUOTE) (fun w =>
    and_then (writeCell_loop w cell) (fun w =>
    WriteByte w DQUOTE))
  else WriteString w cell.

(** [for i, cell := range row] of [WriteRow]; [i] is the index of the
    head of [row]. *)
Fixpoint WriteRow_loop (w : Writer) (i : nat) (row : list gostring)
  : option error * Writer :=
  match row with
  | [] => (None, w)
  | cell :: rest =>
      and_then
        (if 0 <? i then WriteByte w (FieldDelim (wConfig w)) else (None, w))
        (fun w =>
      and_then (writeCell w cell) (fun w =>
      WriteRow_loop w (S i) rest))
  end.

Definition WriteRow (w : Writer) (row : list gostring) : option error * Writer :=
  and_then (WriteRow_loop w 0 row) (fun w =>
  and_then (WriteByte w LF) (fun w =>
  Flush w)).

Fixpoint Writer_WriteAll (w : Writer) (rows : list (list gostring))
  : option error * Writer :=
  match rows with
  | [] => (None, w)
  | row :: rest => and_then (WriteRow w row) (fun w => Writer_WriteAll w rest)
  end.

(** [func WriteAll(out io.Writer, rows [][]string) error], with the
    contents of the sink afterwards. *)
Definition WriteAll (sink : gostring) (rows : list (list gostring))
  : option error * gostring :=
  let '(e, w) := Writer_WriteAll (NewWriter sink) rows in (e, out w).

Example TestWriteLeadingSpace :
  WriteAll [] [[str " A "; str " "]; [str "B"; str "C"]]
  = (None, [DQUOTE] ++ str " A " ++ [DQUOTE] ++ str "," ++ [DQUOTE] ++ str " "
           ++ [DQUOTE; LF] ++ str "B,C" ++ [LF]).
Proof. reflexivity. Qed.

Example TestSemiDelim :
  let cfg := mkConfig false ";"%char in
  let rs := [[str "1"; str "2"; str "3"]; [str "4"; str "5"; str "6"]] in
  row_of (Reader_ReadAll (with_config
            (str2Reader (str "1;2;3" ++ [LF] ++ str "4;5;6")) cfg))
  = (rs, None)
  /\ out (snd (Writer_WriteAll (mkWriter [] cfg) rs))
     = str "1;2;3" ++ [LF] ++ str "4;5;6" ++ [LF].
Proof. split; reflexivity. Qed.

Example range_string_examples :
  range_string (str "a,b") = [97; 44; 98]%Z
  /\ range_string ["195"; "169"]%char = [0xE9]%Z
  /\ range_string ["233"]%char = [RuneError]
  /\ range_string ["226"; "130"; "172"; "065"]%char = [0x20AC; 65]%Z
  /\ range_string ["240"; "159"; "152"; "128"]%char = [0x1F600]%Z
  /\ range_string ["226"; "130"]%char = [RuneError; RuneError].
Proof. repeat split. Qed.

(* ===================================================================== *)
(** ** Runes and bytes                                                    *)
(* ===================================================================== *)

Local Open Scope Z_scope.

Lemma byte_val_range b : 0 <= byte_val b < 256.
Proof.
  unfold byte_val. pose proof (N_ascii_bounded b). lia.
Qed.

Lemma byte_val_inj a b : byte_val a = byte_val b -> a = b.
Proof.
  unfold byte_val; intros H. apply N2Z.inj in H.
  rewrite <- (ascii_N_embedding a), <- (ascii_N_embedding b), H. reflexivity.
Qed.

Lemma byte_val_eqb a b : (byte_val a =? byte_val b) = (a =? b)%char.
Proof.
  destruct (Ascii.eqb_spec a b) as [->|Hn].
  - apply Z.eqb_refl.
  - apply Z.eqb_neq. intros H; apply Hn, byte_val_inj, H.
Qed.

Lemma lor_high a b : 0 <= a -> 0 <= b -> 0x80 <= a -> 0x80 <= Z.lor a b.
Proof.
  intros Ha Hb H.
  destruct (Z_lt_le_dec (Z.lor a b) 0x80) as [Hlt|]; [|assumption].
  exfalso.
  assert (Hpos : 0 < Z.lor a b).
  { assert (0 <= Z.lor a b) by (apply Z.lor_nonneg; split; assumption).
    destruct (Z.eq_dec (Z.lor a b) 0) as [E|]; [|lia].
    apply Z.lor_eq_0_iff in E. lia. }
  change 0x80 with (2 ^ 7) in Hlt.
  apply (Z.log2_lt_pow2 _ _ Hpos) in Hlt.
  rewrite Z.log2_lor in Hlt by assumption.
  assert (Hl : Z.log2 a < 7) by lia.
  apply Z.log2_lt_pow2 in Hl; [|lia]. change (2 ^ 7) with 0x80 in Hl. lia.
Qed.

Lemma low_bits_range mask b : 0 <= mask -> 0 <= low_bits mask b.
Proof.
  intros; unfold low_bits. apply Z.land_nonneg. left. apply byte_val_range.
Qed.

(** The low bits of a lead byte are not all zero where that matters: a
    two-byte sequence starts at 0xC2, so at least bit 1 is set. *)
Lemma lead2_bits b0 : between 0xC2 0xDF b0 = true -> 2 <= low_bits 0x1F b0.
Proof.
  unfold between, low_bits; intros H.
  apply andb_prop in H as [H1 H2]. apply Z.leb_le in H1, H2.
  change 0x1F with (Z.ones 5). rewrite Z.land_ones by lia.
  change (2 ^ 5) with 32.
  pose proof (Z.div_mod (byte_val b0) 32 ltac:(lia)).
  pose proof (Z.mod_pos_bound (byte_val b0) 32 ltac:(lia)).
  lia.
Qed.

Definition high (b : byte) : Prop := 0x80 <= byte_val b.

Lemma between_high lo hi b : 0x80 <= lo -> between lo hi b = true -> high b.
Proof.
  unfold between, high; intros Hlo H.
  apply andb_prop in H as [H1 _]. apply Z.leb_le in H1. lia.
Qed.

Lemma second_lo_high b0 : 0x80 <= second_lo b0.
Proof.
  unfold second_lo.
  destruct (byte_val b0 =? 0xE0); [lia|].
  destruct (byte_val b0 =? 0xF0); lia.
Qed.

Lemma low_bits_mod b n :
  0 <= n -> low_bits (Z.ones n) b = byte_val b mod 2 ^ n.
Proof. intros; unfold low_bits; apply Z.land_ones; assumption. Qed.

Lemma between_bounds lo hi b :
  between lo hi b = true -> lo <= byte_val b <= hi.
Proof.
  unfold between; intros H. apply andb_prop in H as [H1 H2].
  apply Z.leb_le in H1, H2. lia.
Qed.

(** A three-byte sequence decodes to 0x800 or more. *)
Lemma lead3_bits b0 b1 :
  between 0xE0 0xEF b0 = true ->
  between (second_lo b0) (second_hi b0) b1 = true ->
  0x80 <= Z.lor (Z.shiftl (low_bits 0x0F b0) 12) (Z.shiftl (low_bits 0x3F b1) 6).
Proof.
  intros H0 H1. apply between_bounds in H0, H1.
  assert (Hm0 : low_bits 0x0F b0 = byte_val b0 - 0xE0).
  { change 0x0F with (Z.ones 4). rewrite low_bits_mod by lia.
    change (2 ^ 4) with 16.
    pose proof (Z.div_mod (byte_val b0) 16 ltac:(lia)).
    pose proof (Z.mod_pos_bound (byte_val b0) 16 ltac:(lia)). lia. }
  assert (Hm1 : low_bits 0x3F b1 = byte_val b1 mod 64).
  { change 0x3F with (Z.ones 6). apply low_bits_mod. lia. }
  pose proof (Z.div_mod (byte_val b1) 64 ltac:(lia)) as Hd.
  pose proof (Z.mod_pos_bound (byte_val b1) 64 ltac:(lia)) as Hb.
  pose proof (byte_val_range b1) as Hr.
  unfold second_lo, second_hi in H1.
  destruct (byte_val b0 =? 0xE0) eqn:E.
  - (* 0xE0: the second byte is at least 0xA0 *)
    apply Z.eqb_eq in E.
    rewrite Z.lor_comm. apply lor_high.
    + apply Z.shiftl_nonneg. rewrite Hm1. lia.
    + apply Z.shiftl_nonneg. rewrite Hm0. lia.
    + assert ((byte_val b0 =? 0xED) = false) as E' by (apply Z.eqb_neq; lia).
      assert ((byte_val b0 =? 0xF4) = false) as E'' by (apply Z.eqb_neq; lia).
      rewrite E', E'' in H1.
      rewrite Z.shiftl_mul_pow2, Hm1 by lia. change (2 ^ 6) with 64. lia.
  - apply Z.eqb_neq in E. apply lor_high.
    + apply Z.shiftl_nonneg. rewrite Hm0. lia.
    + apply Z.shiftl_nonneg. rewrite Hm1. lia.
    + rewrite Z.shiftl_mul_pow2, Hm0 by lia. change (2 ^ 12) with 4096. lia.
Qed.

(** A four-byte sequence decodes to 0x10000 or more. *)
Lemma lead4_bits b0 b1 :
  between 0xF0 0xF4 b0 = true ->
  between (second_lo b0) (second_hi b0) b1 = true ->
  0x80 <= Z.lor (Z.shiftl (low_bits 0x07 b0) 18) (Z.shiftl (low_bits 0x3F b1) 12).
Proof.
  intros H0 H1. apply between_bounds in H0, H1.
  assert (Hm0 : low_bits 0x07 b0 = byte_val b0 - 0xF0).
  { change 0x07 with (Z.ones 3). rewrite low_bits_mod by lia.
    change (2 ^ 3) with 8.
    pose proof (Z.div_mod (byte_val b0) 8 ltac:(lia)).
    pose proof (Z.mod_pos_bound (byte_val b0) 8 ltac:(lia)). lia. }
  assert (Hm1 : low_bits 0x3F b1 = byte_val b1 mod 64).
  { change 0x3F with (Z.ones 6). apply low_bits_mod. lia. }
  pose proof (Z.div_mod (byte_val b1) 64 ltac:(lia)) as Hd.
  pose proof (Z.mod_pos_bound (byte_val b1) 64 ltac:(lia)) as Hb.
  pose proof (byte_val_range b1) as Hr.
  unfold second_lo, second_hi in H1.
  destruct (byte_val b0 =? 0xF0) eqn:E.
  - apply Z.eqb_eq in E.
    assert ((byte_val b0 =? 0xE0) = false) as E1 by (apply Z.eqb_neq; lia).
    assert ((byte_val b0 =? 0xED) = false) as E2 by (apply Z.eqb_neq; lia).
    assert ((byte_val b0 =? 0xF4) = false) as E3 by (apply Z.eqb_neq; lia).
    rewrite E1, E2, E3 in H1.
    rewrite Z.lor_comm. apply lor_high.
    + apply Z.shiftl_nonneg. rewrite Hm1. lia.
    + apply Z.shiftl_nonneg. rewrite Hm0. lia.
    + rewrite Z.shiftl_mul_pow2, Hm1 by lia. change (2 ^ 12) with 4096. lia.
  - apply Z.eqb_neq in E. apply lor_high.
    + apply Z.shiftl_nonneg. rewrite Hm0. lia.
    + apply Z.shiftl_nonneg. rewrite Hm1. lia.
    + rewrite Z.shiftl_mul_pow2, Hm0 by lia. change (2 ^ 18) with 262144. lia.
Qed.

Lemma lor_high_l a b : 0 <= b -> 0x80 <= a -> 0x80 <= Z.lor a b.
Proof. intros; apply lor_high; lia. Qed.

Lemma lor_assoc_high a b c :
  0 <= a -> 0 <= b -> 0 <= c -> 0x80 <= Z.lor a b -> 0x80 <= Z.lor a (Z.lor b c).
Proof.
  intros Ha Hb Hc H. rewrite Z.lor_assoc. apply lor_high_l; assumption.
Qed.

(** Decoding at a byte of 0x80 or more never yields an ASCII rune, and
    the bytes it steps over are not ASCII either. *)
Lemma DecodeRuneInString_high b0 s1 c w :
  DecodeRuneInString (b0 :: s1) = (c, w) ->
  high b0 ->
  0x80 <= c /\ Forall high (firstn (w - 1) s1).
Proof.
  unfold high at 1. intros H Hb. cbn [DecodeRuneInString] in H.
  destruct (byte_val b0 <? 0x80) eqn:E0; [apply Z.ltb_lt in E0; lia|].
  assert (Herr : forall (s : gostring), (RuneError, 1%nat) = (c, w) ->
            0x80 <= c /\ Forall high (firstn (w - 1) s)).
  { intros s E; inversion E; subst; split; [unfold RuneError; lia|constructor]. }
  assert (Hs6 : forall b n, 0 <= n -> 0 <= Z.shiftl (low_bits 0x3F b) n).
  { intros; apply Z.shiftl_nonneg, low_bits_range; lia. }
  assert (Hl6 : forall b, 0 <= low_bits 0x3F b) by (intros; apply low_bits_range; lia).
  destruct (between 0xC2 0xDF b0) eqn:E2.
  { destruct s1 as [|b1 s2]; [apply Herr, H|].
    destruct (is_cont b1) eqn:C1; [|apply Herr, H].
    apply pair_equal_spec in H as [Hc Hw]; clear Herr; subst c w; split; [|simpl].
    - apply lor_high_l; [apply Hl6|].
      pose proof (lead2_bits _ E2) as Hb0.
      rewrite Z.shiftl_mul_pow2 by lia. change (2 ^ 6) with 64. lia.
    - repeat constructor. eapply between_high; [|exact C1]. lia. }
  destruct (between 0xE0 0xEF b0) eqn:E3.
  { destruct s1 as [|b1 [|b2 s3]]; [apply Herr, H|apply Herr, H|].
    destruct (between (second_lo b0) (second_hi b0) b1) eqn:C1; [|apply Herr, H].
    destruct (is_cont b2) eqn:C2; [|apply Herr, H].
    apply pair_equal_spec in H as [Hc Hw]; clear Herr; subst c w; split; [|simpl].
    - apply lor_assoc_high;
        [ apply Z.shiftl_nonneg, low_bits_range; lia | apply Hs6; lia
        | apply Hl6 | apply lead3_bits; assumption ].
    - repeat constructor.
      + eapply between_high; [apply second_lo_high|exact C1].
      + eapply between_high; [|exact C2]. lia. }
  destruct (between 0xF0 0xF4 b0) eqn:E4; [|apply Herr, H].
  destruct s1 as [|b1 [|b2 [|b3 s4]]]; try (apply Herr, H).
  destruct (between (second_lo b0) (second_hi b0) b1) eqn:C1; [|apply Herr, H].
  destruct (is_cont b2) eqn:C2; [|apply Herr, H].
  destruct (is_cont b3) eqn:C3; [|apply Herr, H].
  apply pair_equal_spec in H as [Hc Hw]; clear Herr; subst c w; split; [|simpl].
  - apply lor_assoc_high;
      [ apply Z.shiftl_nonneg, low_bits_range; lia | apply Hs6; lia
      | apply Z.lor_nonneg; split; [apply Hs6; lia | apply Hl6]
      | apply lead4_bits; assumption ].
  - repeat constructor.
    + eapply between_high; [apply second_lo_high|exact C1].
    + eapply between_high; [|exact C2]. lia.
    + eapply between_high; [|exact C3]. lia.
Qed.

(** A test on runes that only ASCII runes pass sees exactly what the same
    test on bytes sees. *)
Section RangeAscii.
Variable P : rune -> bool.
Variable Q : byte -> bool.
Hypothesis P_ascii : forall b, byte_val b < 0x80 -> P (byte_val b) = Q b.
Hypothesis P_high : forall c, 0x80 <= c -> P c = false.
Hypothesis Q_high : forall b, high b -> Q b = false.

Lemma range_from_ascii s : forall skip,
  Forall high (firstn skip s) ->
  existsb P (range_from skip s) = existsb Q s.
Proof.
  induction s as [|b s IH]; intros skip Hskip; [reflexivity|].
  destruct skip as [|k].
  - cbn [range_from].
    destruct (DecodeRuneInString (b :: s)) as [c w] eqn:Hd.
    destruct (Z_lt_le_dec (byte_val b) 0x80) as [Hlo|Hhi].
    + cbn [DecodeRuneInString] in Hd.
      apply Z.ltb_lt in Hlo as Hlo'. rewrite Hlo' in Hd.
      apply pair_equal_spec in Hd as [<- <-].
      cbn [existsb]. rewrite P_ascii by assumption.
      f_equal. apply IH. constructor.
    + destruct (DecodeRuneInString_high _ _ _ _ Hd Hhi) as [Hc Hrest].
      cbn [existsb]. rewrite (P_high _ Hc), (Q_high _ Hhi). cbn [orb].
      apply IH, Hrest.
  - cbn [range_from existsb]. cbn [firstn] in Hskip.
    inversion Hskip as [|? ? Hb Hk]; subst.
    rewrite (Q_high _ Hb). cbn [orb]. apply IH, Hk.
Qed.

Lemma range_string_ascii s : existsb P (range_string s) = existsb Q s.
Proof. apply range_from_ascii. constructor. Qed.
End RangeAscii.

(** The bytes [needsQuotes] is meant to look for. *)
Definition special (delim : byte) (b : byte) : bool :=
  ((b =? LF) || (b =? DQUOTE) || (b =? TAB) || (b =? delim))%char.

Definition edge_space (s : gostring) : bool :=
  (0 <? length s)%nat && ((hd NUL s =? SPACE)%char || (last s NUL =? SPACE)%char).

Lemma needsQuotes_unfold cfg s :
  needsQuotes cfg s =
  edge_space s ||
  existsb (fun c : rune =>
             (c =? rune_of_byte LF) || (c =? rune_of_byte DQUOTE)
             || (c =? rune_of_byte TAB)
             || (c =? rune_of_byte (FieldDelim cfg)))
          (range_string s).
Proof.
  unfold needsQuotes, edge_space.
  destruct ((0 <? length s)%nat
            && ((hd NUL s =? SPACE)%char || (last s NUL =? SPACE)%char));
    reflexivity.
Qed.

(** With an ASCII delimiter the rune loop of [needsQuotes] is a byte
    test. *)
Lemma needsQuotes_ascii cfg s :
  byte_val (FieldDelim cfg) < 0x80 ->
  needsQuotes cfg s = edge_space s || existsb (special (FieldDelim cfg)) s.
Proof.
  intros Hd. rewrite needsQuotes_unfold. f_equal.
  apply range_string_ascii.
  - intros b Hb. unfold special, rune_of_byte.
    rewrite !byte_val_eqb. reflexivity.
  - intros c Hc. unfold rune_of_byte.
    change (byte_val LF) with 10; change (byte_val DQUOTE) with 34;
      change (byte_val TAB) with 9.
    repeat (apply orb_false_intro); apply Z.eqb_neq; lia.
  - intros b Hb. unfold special, high in *.
    repeat (apply orb_false_intro); apply Ascii.eqb_neq; intros ->;
      revert Hb;
      change (byte_val LF) with 10; change (byte_val DQUOTE) with 34;
      change (byte_val TAB) with 9; lia.
Qed.

Local Close Scope Z_scope.

(* ===================================================================== *)
(** ** What the writer emits                                              *)
(* ===================================================================== *)

(** The body of a quoted field: every double-quote twice. *)
Definition doubled (cell : gostring) : gostring :=
  flat_map (fun b => if (b =? DQUOTE)%char then [DQUOTE; DQUOTE] else [b]) cell.

(** The bytes of one cell, of one row and of a table. *)
Definition cell_bytes (cfg : Config) (cell : gostring) : gostring :=
  if needsQuotes cfg cell then DQUOTE :: doubled cell ++ [DQUOTE] else cell.

Fixpoint cells_bytes (cfg : Config) (i : nat) (row : list gostring) : gostring :=
  match row with
  | [] => []
  | cell :: rest =>
      (if (0 <? i)%nat then [FieldDelim cfg] else [])
        ++ cell_bytes cfg cell ++ cells_bytes cfg (S i) rest
  end.

Definition row_bytes (cfg : Config) (row : list gostring) : gostring :=
  cells_bytes cfg 0 row ++ [LF].

Definition table_bytes (cfg : Config) (rows : list (list gostring)) : gostring :=
  flat_map (row_bytes cfg) rows.

Definition count_quotes (s : gostring) : nat := count_occ ascii_dec s DQUOTE.

Lemma writeCell_loop_out cell : forall w,
  writeCell_loop w cell = (None, mkWriter (out w ++ doubled cell) (wConfig w)).
Proof.
  induction cell as [|b cell IH]; intros w; simpl.
  - rewrite app_nil_r. destruct w; reflexivity.
  - destruct (b =? DQUOTE)%char; simpl; rewrite IH; simpl;
      rewrite <- app_assoc; reflexivity.
Qed.

Lemma writeCell_out w cell :
  writeCell w cell
  = (None, mkWriter (out w ++ cell_bytes (wConfig w) cell) (wConfig w)).
Proof.
  unfold writeCell, cell_bytes.
  destruct (needsQuotes (wConfig w) cell); simpl; [|reflexivity].
  rewrite writeCell_loop_out; simpl. unfold WriteByte; simpl.
  rewrite <- !app_assoc. reflexivity.
Qed.

Lemma WriteRow_loop_out row : forall w i,
  WriteRow_loop w i row
  = (None, mkWriter (out w ++ cells_bytes (wConfig w) i row) (wConfig w)).
Proof.
  induction row as [|cell row IH]; intros w i; simpl.
  - rewrite app_nil_r. destruct w; reflexivity.
  - destruct (0 <? i)%nat; simpl; rewrite writeCell_out; simpl;
      rewrite IH; simpl; rewrite <- !app_assoc; reflexivity.
Qed.

Lemma WriteRow_out w row :
  WriteRow w row
  = (None, mkWriter (out w ++ row_bytes (wConfig w) row) (wConfig w)).
Proof.
  unfold WriteRow, row_bytes. rewrite WriteRow_loop_out; simpl.
  rewrite <- app_assoc. reflexivity.
Qed.

Lemma Writer_WriteAll_out rows : forall w,
  Writer_WriteAll w rows
  = (None, mkWriter (out w ++ table_bytes (wConfig w) rows) (wConfig w)).
Proof.
  induction rows as [|row rows IH]; intros w; simpl.
  - rewrite app_nil_r. destruct w; reflexivity.
  - rewrite WriteRow_out; simpl. rewrite IH; simpl.
    rewrite <- app_assoc. reflexivity.
Qed.

Lemma WriteAll_out sink rows :
  WriteAll sink rows = (None, sink ++ table_bytes DefaultConfig rows).
Proof.
  unfold WriteAll. rewrite Writer_WriteAll_out. reflexivity.
Qed.

Lemma count_quotes_app s t :
  count_quotes (s ++ t) = count_quotes s + count_quotes t.
Proof. apply count_occ_app. Qed.

Lemma doubled_cons b cell :
  doubled (b :: cell)
  = (if (b =? DQUOTE)%char then [DQUOTE; DQUOTE] else [b]) ++ doubled cell.
Proof. reflexivity. Qed.

Lemma count_quotes_doubled cell :
  count_quotes (doubled cell) = 2 * count_quotes cell.
Proof.
  induction cell as [|b cell IH]; [reflexivity|].
  rewrite doubled_cons, count_quotes_app, IH. unfold count_quotes.
  destruct (Ascii.eqb_spec b DQUOTE) as [->|Hn].
  - simpl. lia.
  - simpl. destruct (ascii_dec b DQUOTE); [contradiction|]. lia.
Qed.

(* ===================================================================== *)
(** ** The cell scanner on quoted fields                                  *)
(* ===================================================================== *)

(** After the closing quote: the read that finds no second quote, then
    the loop over spaces. *)
Definition after_quote (fin : error) (p : gostring)
  : byte * option error * gostring :=
  match p with
  | b2 :: p2 => eat_spaces fin b2 None p2
  | [] => (NUL, Some fin, [])
  end.

Lemma eat_spaces_stop fin b e p :
  b <> SPACE -> eat_spaces fin b e p = (b, e, p).
Proof.
  intros Hb. apply Ascii.eqb_neq in Hb.
  destruct p; simpl; rewrite Hb; reflexivity.
Qed.

Lemma eat_spaces_run fin n : forall t rest,
  t <> SPACE ->
  eat_spaces fin SPACE None (repeat SPACE n ++ t :: rest) = (t, None, rest).
Proof.
  induction n as [|n IH]; intros t rest Ht; simpl.
  - apply eat_spaces_stop, Ht.
  - apply IH, Ht.
Qed.

Lemma eat_spaces_run_end fin n :
  eat_spaces fin SPACE None (repeat SPACE n) = (NUL, Some fin, []).
Proof. induction n as [|n IH]; simpl; [reflexivity|exact IH]. Qed.

Lemma after_quote_run fin n t rest :
  t <> SPACE ->
  after_quote fin (repeat SPACE n ++ t :: rest) = (t, None, rest).
Proof.
  intros Ht. destruct n as [|n]; simpl.
  - apply eat_spaces_stop, Ht.
  - apply eat_spaces_run, Ht.
Qed.

Lemma after_quote_run_end fin n :
  after_quote fin (repeat SPACE n) = (NUL, Some fin, []).
Proof.
  destruct n as [|n]; simpl; [reflexivity|apply eat_spaces_run_end].
Qed.

(** The loop of [parseQuoted] undoes [doubled] up to the closing quote. *)
Lemma parseQuoted_loop_closed fin cell : forall buf rest,
  hd NUL rest <> DQUOTE ->
  parseQuoted_loop fin buf (doubled cell ++ DQUOTE :: rest)
  = (buf ++ cell, fst (fst (after_quote fin rest)), None,
     buf ++ cell, snd (after_quote fin rest)).
Proof.
  induction cell as [|b cell IH]; intros buf rest Hrest.
  - cbn [doubled flat_map app parseQuoted_loop].
    rewrite Ascii.eqb_refl, app_nil_r.
    destruct rest as [|b2 p2]; [reflexivity|].
    cbn [hd] in Hrest. apply Ascii.eqb_neq in Hrest. rewrite Hrest.
    cbn [after_quote].
    destruct (eat_spaces fin b2 None p2) as [[b3 e3] p3]. reflexivity.
  - rewrite doubled_cons.
    destruct (Ascii.eqb_spec b DQUOTE) as [->|Hn].
    + cbn [app parseQuoted_loop]. rewrite Ascii.eqb_refl.
      rewrite IH by assumption. rewrite <- !app_assoc. reflexivity.
    + cbn [app parseQuoted_loop]. apply Ascii.eqb_neq in Hn. rewrite Hn.
      rewrite IH by assumption. rewrite <- !app_assoc. reflexivity.
Qed.

(** The bytes after an opening quote among which every double-quote is
    followed by a second one: no closing quote. *)
Inductive no_closing_quote : gostring -> Prop :=
| ncq_end : no_closing_quote []
| ncq_byte b p : b <> DQUOTE -> no_closing_quote p -> no_closing_quote (b :: p)
| ncq_pair p : no_closing_quote p -> no_closing_quote (DQUOTE :: DQUOTE :: p).

Lemma doubled_no_closing_quote cell : no_closing_quote (doubled cell).
Proof.
  induction cell as [|b cell IH]; [constructor|].
  rewrite doubled_cons. destruct (Ascii.eqb_spec b DQUOTE) as [->|Hn]; simpl.
  - apply ncq_pair, IH.
  - apply ncq_byte; assumption.
Qed.

Lemma parseQuoted_loop_unclosed fin p :
  no_closing_quote p ->
  forall buf, exists buf',
    parseQuoted_loop fin buf p
    = ([], NUL, Some (if is_EOF fin then ErrUnexpectedEOF else fin), buf', []).
Proof.
  induction 1 as [|b p Hb _ IH|p _ IH]; intros buf.
  - exists buf. reflexivity.
  - cbn [parseQuoted_loop]. apply Ascii.eqb_neq in Hb. rewrite Hb. apply IH.
  - cbn [parseQuoted_loop]. rewrite Ascii.eqb_refl. apply IH.
Qed.

(** [parseCell] at an opening quote, and behind leading spaces. *)
Lemma parseCell_at_quote r p :
  pending (br r) = DQUOTE :: p ->
  parseCell r = parseQuoted (with_source r [] p).
Proof.
  intros Hp. unfold parseCell. rewrite Hp. cbn [read_byte].
  destruct (TrimSpaces (rConfig r)); [rewrite eat_spaces_stop by discriminate|];
    reflexivity.
Qed.

Lemma parseCell_trim_leading r n p :
  TrimSpaces (rConfig r) = true ->
  pending (br r) = repeat SPACE n ++ p ->
  parseCell r = parseCell (with_source r (tmpbuf r) p).
Proof.
  intros Ht. revert r Ht. induction n as [|n IH]; intros r Ht Hp.
  - cbn [repeat app] in Hp. destruct r as [buf [q fin] cfg]; simpl in *.
    subst; reflexivity.
  - cbn [repeat app] in Hp.
    transitivity (parseCell (with_source r (tmpbuf r) (repeat SPACE n ++ p))).
    + unfold parseCell. rewrite Hp.
      cbn [with_source br pending at_end rConfig read_byte]. rewrite Ht.
      destruct (repeat SPACE n ++ p) as [|x q]; reflexivity.
    + rewrite (IH (with_source r (tmpbuf r) (repeat SPACE n ++ p)));
        [reflexivity | exact Ht | reflexivity].
Qed.

(** [parseCell] on a quoted field, the spaces after it and the byte [t]
    that ends it. *)
Lemma parseCell_quoted_field r content n t rest :
  pending (br r)
    = DQUOTE :: doubled content ++ DQUOTE :: repeat SPACE n ++ t :: rest ->
  t <> SPACE ->
  (n = 0 -> t <> DQUOTE) ->
  parseCell r = (content, t, None, with_source r content rest).
Proof.
  intros Hp Ht Hq.
  rewrite (parseCell_at_quote r _ Hp). unfold parseQuoted.
  cbn [with_source br pending at_end rConfig].
  rewrite parseQuoted_loop_closed.
  - rewrite after_quote_run by assumption. reflexivity.
  - destruct n as [|n]; cbn [repeat app hd]; [apply Hq; reflexivity|discriminate].
Qed.

(** The same at the end of the input: the spaces are eaten and the
    terminator is the zero byte. *)
Lemma parseCell_quoted_at_end r content n :
  pending (br r) = DQUOTE :: doubled content ++ DQUOTE :: repeat SPACE n ->
  parseCell r = (content, NUL, None, with_source r content []).
Proof.
  intros Hp.
  rewrite (parseCell_at_quote r _ Hp). unfold parseQuoted.
  cbn [with_source br pending at_end rConfig].
  rewrite parseQuoted_loop_closed.
  - rewrite after_quote_run_end. reflexivity.
  - destruct n as [|n]; cbn [repeat hd]; discriminate.
Qed.

(** What may follow the closing quote and its [n] spaces: nothing, or a
    byte that is no space and, right after the quote, no second quote
    (which would make the two an escaped quote). *)
Definition after_run (n : nat) (tail : gostring) : Prop :=
  match tail with
  | [] => True
  | t :: _ => t <> SPACE /\ (n = 0 -> t <> DQUOTE)
  end.

(** The byte that comes with a read at the end of the source. *)
Definition end_byte (rd : ByteReader) : byte :=
  fst (fst (ReadByte {| pending := []; at_end := at_end rd |})).

(** The terminator of a quoted field followed by [tail]: the first byte
    of [tail], or at the end of the input the byte of the failed read. *)
Definition terminator_of (r : Reader) (tail : gostring) : byte :=
  match tail with
  | t :: _ => t
  | [] => end_byte (br r)
  end.

Lemma spaces_run_shape (p : gostring) :
  exists n tail, p = repeat SPACE n ++ tail /\ hd NUL tail <> SPACE.
Proof.
  induction p as [|b p [n [tail [Hp Ht]]]].
  - exists 0, []. split; [reflexivity|discriminate].
  - destruct (Ascii.eqb_spec b SPACE) as [->|Hb].
    + exists (S n), tail. split; [cbn [repeat app]; rewrite Hp; reflexivity|exact Ht].
    + exists 0, (b :: p). split; [reflexivity|exact Hb].
Qed.

(** The bytes after an opening quote either hold no closing quote or are
    the doubled content, the closing quote and what follows it. *)
Lemma quoted_body_shape (p : gostring) :
  no_closing_quote p
  \/ exists content rest,
       p = doubled content ++ DQUOTE :: rest /\ hd NUL rest <> DQUOTE.
Proof.
  assert (H : forall k q, length q <= k ->
             no_closing_quote q
             \/ exists content rest,
                  q = doubled content ++ DQUOTE :: rest /\ hd NUL rest <> DQUOTE).
  { induction k as [|k IH]; intros q Hq.
    - destruct q; [left; constructor|simpl in Hq; lia].
    - destruct q as [|b q]; [left; constructor|]. simpl in Hq.
      destruct (Ascii.eqb_spec b DQUOTE) as [->|Hb].
      + destruct q as [|b2 q2].
        * right. exists [], []. split; [reflexivity|discriminate].
        * destruct (Ascii.eqb_spec b2 DQUOTE) as [->|Hb2].
          -- destruct (IH q2 ltac:(simpl in Hq; lia))
               as [Hn|[content [rest [Hp Hr]]]].
             ++ left. apply ncq_pair, Hn.
             ++ right. exists (DQUOTE :: content), rest. split; [|exact Hr].
                rewrite doubled_cons, Ascii.eqb_refl, Hp. reflexivity.
          -- right. exists [], (b2 :: q2). split; [reflexivity|exact Hb2].
      + destruct (IH q ltac:(lia)) as [Hn|[content [rest [Hp Hr]]]].
        * left. apply ncq_byte; assumption.
        * right. exists (b :: content), rest. split; [|exact Hr].
          rewrite doubled_cons. apply Ascii.eqb_neq in Hb. rewrite Hb, Hp.
          reflexivity. }
  apply (H (length p)). lia.
Qed.

Lemma quoted_field_shape (p : gostring) :
  no_closing_quote p
  \/ exists content n tail,
       p = doubled content ++ DQUOTE :: repeat SPACE n ++ tail
       /\ after_run n tail.
Proof.
  destruct (quoted_body_shape p) as [Hn|[content [rest [Hp Hr]]]];
    [left; exact Hn|right].
  destruct (spaces_run_shape rest) as [n [tail [Hrest Ht]]].
  exists content, n, tail. split; [rewrite Hp, Hrest; reflexivity|].
  destruct tail as [|t tail]; [exact I|]. split; [exact Ht|].
  intros ->. rewrite Hrest in Hr. exact Hr.
Qed.

(** C5: for every quoted field, with or without leading spaces eaten by
    [TrimSpaces] before its opening quote: once the closing double-quote
    is seen the scanner consumes and discards the whole run of spaces
    that follows, whatever [TrimSpaces] says; the first byte after the
    run is the terminator, or the byte of the failed read when the run
    reaches the end of the input; the returned text is the content
    between the quotes, without any of the discarded spaces, and the
    input is left right after the terminator.  Every input at an opening
    quote that holds a closing quote is of the shape the statement
    takes. *)
Theorem parseCell_quoted_eats_trailing_spaces r m body :
  m = 0 \/ TrimSpaces (rConfig r) = true ->
  pending (br r) = repeat SPACE m ++ DQUOTE :: body ->
  (forall content n tail,
     body = doubled content ++ DQUOTE :: repeat SPACE n ++ tail ->
     after_run n tail ->
     parseCell r
     = (content, terminator_of r tail, None, with_source r content (tl tail)))
  /\ (no_closing_quote body
      \/ exists content n tail,
           body = doubled content ++ DQUOTE :: repeat SPACE n ++ tail
           /\ after_run n tail).
Proof.
  intros Hm Hp. split; [|apply quoted_field_shape].
  intros content n tail Hbody Htail.
  assert (Hgo : forall r0, br r0 = mkByteReader (DQUOTE :: body) (at_end (br r)) ->
            rConfig r0 = rConfig r ->
            parseCell r0
            = (content, terminator_of r tail, None, with_source r content (tl tail))).
  { intros r0 Hbr Hcfg.
    assert (Hws : forall buf q, with_source r0 buf q = with_source r buf q)
      by (intros; unfold with_source; rewrite Hbr, Hcfg; reflexivity).
    destruct tail as [|t rest].
    - rewrite app_nil_r in Hbody.
      rewrite (parseCell_quoted_at_end r0 content n)
        by (rewrite Hbr, Hbody; reflexivity).
      rewrite Hws. reflexivity.
    - destruct Htail as [Ht Hq].
      rewrite (parseCell_quoted_field r0 content n t rest)
        by (try assumption; rewrite Hbr, Hbody; reflexivity).
      rewrite Hws. reflexivity. }
  destruct Hm as [->|Htrim].
  - apply Hgo; [|reflexivity]. cbn [repeat app] in Hp.
    destruct r as [buf [q fin] cfg]. cbn in *. subst q. reflexivity.
  - rewrite (parseCell_trim_leading r m _ Htrim Hp).
    apply Hgo; reflexivity.
Qed.

Lemma parseCell_quoted_eats_trailing_spaces_witness :
  let r1 := str2Reader (DQUOTE :: str " c " ++ [DQUOTE; SPACE]) in
  let r2 := with_config
              (str2Reader (str "  " ++ DQUOTE :: str "Whee" ++ DQUOTE :: str "  ,x"))
              (mkConfig true COMMA) in
  parseCell r1 = (str " c ", NUL, None, with_source r1 (str " c ") [])
  /\ parseCell r2 = (str "Whee", COMMA, None, with_source r2 (str "Whee") (str "x")).
Proof.
  split.
  - destruct (parseCell_quoted_eats_trailing_spaces
                (str2Reader (DQUOTE :: str " c " ++ [DQUOTE; SPACE]))
                0 (str " c " ++ [DQUOTE; SPACE])
                (or_introl eq_refl) eq_refl) as [H _].
    apply (H (str " c ") 1 [] eq_refl I).
  - destruct (parseCell_quoted_eats_trailing_spaces
                (with_config
                   (str2Reader (str "  " ++ DQUOTE :: str "Whee" ++ DQUOTE :: str "  ,x"))
                   (mkConfig true COMMA))
                2 (str "Whee" ++ DQUOTE :: str "  ,x")
                (or_intror eq_refl) eq_refl) as [H _].
    apply (H (str "Whee") 2 (str ",x") eq_refl).
    split; [discriminate|intros E; discriminate E].
Defined.

(** C6: when the input ends inside a quoted field, before any closing
    double-quote, the cell parse fails with [io.ErrUnexpectedEOF], which
    is not the clean end-of-input [io.EOF], and the field text is empty. *)
Theorem parseCell_unterminated_quote r n body :
  at_end (br r) = EOF ->
  n = 0 \/ TrimSpaces (rConfig r) = true ->
  pending (br r) = repeat SPACE n ++ DQUOTE :: body ->
  no_closing_quote body ->
  exists r',
    parseCell r = ([], NUL, Some ErrUnexpectedEOF, r')
    /\ ErrUnexpectedEOF <> EOF
    /\ pending (br r') = [].
Proof.
  intros Hfin Hn Hp Hbody.
  assert (Hq : parseCell r
               = parseQuoted (with_source r [] body)).
  { destruct Hn as [->|Ht].
    - apply parseCell_at_quote, Hp.
    - rewrite (parseCell_trim_leading r n _ Ht Hp).
      rewrite (parseCell_at_quote
                 (with_source r (tmpbuf r) (DQUOTE :: body)) body eq_refl).
      reflexivity. }
  rewrite Hq. unfold parseQuoted.
  cbn [with_source br pending at_end rConfig].
  destruct (parseQuoted_loop_unclosed (at_end (br r)) body Hbody []) as [buf' Hl].
  rewrite Hl, Hfin. cbn [is_EOF].
  eexists. split; [reflexivity|]. split; [discriminate|reflexivity].
Qed.

Lemma parseCell_unterminated_quote_witness :
  exists r',
    parseCell (str2Reader (DQUOTE :: str "Unterminated"))
    = ([], NUL, Some ErrUnexpectedEOF, r')
    /\ ErrUnexpectedEOF <> EOF
    /\ pending (br r') = [].
Proof.
  apply (parseCell_unterminated_quote
           (str2Reader (DQUOTE :: str "Unterminated")) 0 (str "Unterminated")).
  - reflexivity.
  - left; reflexivity.
  - reflexivity.
  - apply (doubled_no_closing_quote (str "Unterminated")).
Defined.

(* ===================================================================== *)
(** ** The cell scanner on unquoted fields                                *)
(* ===================================================================== *)

(** A byte the unquoted loop copies: neither a newline nor the delimiter. *)
Definition copied (cfg : Config) (b : byte) : Prop :=
  b <> LF /\ b <> FieldDelim cfg.

(** A byte that ends the unquoted loop. *)
Definition stops (cfg : Config) (b : byte) : Prop :=
  b = LF \/ b = FieldDelim cfg.

(** The value of [trailing_spaces] after the loop has copied [body],
    starting from [n]. *)
Fixpoint count_trailing (cfg : Config) (n : nat) (body : gostring) : nat :=
  match body with
  | [] => n
  | b :: body' =>
      count_trailing cfg
        (if TrimSpaces cfg then
           if (b =? SPACE)%char || (b =? CR)%char then S n else 0
         else n)
        body'
  end.

(** The state after one [ReadByte] on [p], run through the loop. *)
Definition scan_from (cfg : Config) (fin : error)
    (n : nat) (l : byte) (buf p : gostring)
  : nat * byte * gostring * byte * option error * gostring :=
  match p with
  | b :: p' => scan_unquoted cfg fin n l buf b None p'
  | [] => (n, l, buf, NUL, Some fin, [])
  end.

Lemma scan_unquoted_step cfg fin n l buf b p :
  copied cfg b ->
  scan_unquoted cfg fin n l buf b None p
  = scan_from cfg fin
      (if TrimSpaces cfg then
         if (b =? SPACE)%char || (b =? CR)%char then S n else 0
       else n)
      b (buf ++ [b]) p.
Proof.
  intros [H1 H2]. apply Ascii.eqb_neq in H1, H2.
  destruct p; simpl; rewrite H1, H2; reflexivity.
Qed.

Lemma scan_unquoted_stop cfg fin n l buf b p :
  stops cfg b ->
  scan_unquoted cfg fin n l buf b None p = (n, l, buf, b, None, p).
Proof.
  intros [->| ->]; destruct p; simpl; rewrite ?Ascii.eqb_refl;
    rewrite ?andb_false_r; reflexivity.
Qed.

Lemma last_default (body : gostring) : forall x d d',
  last (x :: body) d = last (x :: body) d'.
Proof.
  induction body as [|y body IH]; intros x d d'; [reflexivity|].
  change (last (y :: body) d = last (y :: body) d'). apply IH.
Qed.

Lemma last_cons (body : gostring) b l : last (b :: body) l = last body b.
Proof.
  destruct body as [|y body]; [reflexivity|].
  change (last (y :: body) l = last (y :: body) b). apply last_default.
Qed.

Lemma scan_from_body cfg fin body : forall n l buf t rest,
  Forall (copied cfg) body ->
  stops cfg t ->
  scan_from cfg fin n l buf (body ++ t :: rest)
  = (count_trailing cfg n body, last body l, buf ++ body, t, None, rest).
Proof.
  induction body as [|b body IH]; intros n l buf t rest Hbody Ht.
  - cbn [app scan_from count_trailing last]. rewrite app_nil_r.
    apply scan_unquoted_stop, Ht.
  - inversion Hbody as [|? ? Hb Hrest]; subst.
    cbn [app scan_from]. rewrite scan_unquoted_step by assumption.
    rewrite IH by assumption. cbn [count_trailing].
    rewrite <- app_assoc. cbn [app].
    rewrite (last_cons body b l). reflexivity.
Qed.

Lemma scan_from_body_end cfg fin body : forall n l buf,
  Forall (copied cfg) body ->
  scan_from cfg fin n l buf body
  = (count_trailing cfg n body, last body l, buf ++ body, NUL, Some fin, []).
Proof.
  induction body as [|b body IH]; intros n l buf Hbody.
  - cbn [scan_from count_trailing last]. rewrite app_nil_r. reflexivity.
  - inversion Hbody as [|? ? Hb Hrest]; subst.
    cbn [scan_from]. rewrite scan_unquoted_step by assumption.
    rewrite IH by assumption. cbn [count_trailing].
    rewrite <- app_assoc. cbn [app].
    rewrite (last_cons body b l). reflexivity.
Qed.

(** How many bytes [parseCell] cuts off the end of an unquoted field. *)
Definition cut_off (cfg : Config) (body : gostring) (t : byte) : nat :=
  let n := count_trailing cfg 0 body in
  if (last body NUL =? CR)%char && (t =? LF)%char && (n =? 0) then 1 else n.

(** [parseCell] in unquoted mode, up to a terminator. *)
Lemma parseCell_unquoted r body t rest :
  pending (br r) = body ++ t :: rest ->
  Forall (copied (rConfig r)) body ->
  stops (rConfig r) t ->
  hd t body <> DQUOTE ->
  (TrimSpaces (rConfig r) = true -> hd t body <> SPACE) ->
  parseCell r
  = (firstn (length body - cut_off (rConfig r) body t) body, t, None,
     with_source r body rest).
Proof.
  intros Hp Hbody Ht Hq Hs.
  unfold parseCell. rewrite Hp.
  assert (Hread : (let '(b, e, p) := read_byte (at_end (br r)) (body ++ t :: rest) in
                   if TrimSpaces (rConfig r)
                   then eat_spaces (at_end (br r)) b e p else (b, e, p))
                  = read_byte (at_end (br r)) (body ++ t :: rest)).
  { destruct (TrimSpaces (rConfig r)) eqn:E.
    - destruct body as [|b body]; cbn [app read_byte hd] in *;
        apply eat_spaces_stop; apply Hs; reflexivity.
    - destruct (read_byte (at_end (br r)) (body ++ t :: rest)) as [[? ?] ?].
      reflexivity. }
  assert (Hscan : forall b p, read_byte (at_end (br r)) (body ++ t :: rest) = (b, None, p) ->
            scan_unquoted (rConfig r) (at_end (br r)) 0 NUL [] b None p
            = (count_trailing (rConfig r) 0 body, last body NUL, body, t, None, rest)).
  { intros b p Hr.
    pose proof (scan_from_body (rConfig r) (at_end (br r)) body 0 NUL [] t rest Hbody Ht) as H.
    destruct body as [|b0 body]; cbn [app read_byte] in Hr;
      apply pair_equal_spec in Hr as [Hr <-];
      apply pair_equal_spec in Hr as [<- _]; exact H. }
  destruct (read_byte (at_end (br r)) (body ++ t :: rest)) as [[b e] p] eqn:Hr.
  assert (He : e = None /\ b = hd t body).
  { destruct body; cbn [app read_byte hd] in *;
      apply pair_equal_spec in Hr as [Hr _];
      apply pair_equal_spec in Hr as [<- <-]; split; reflexivity. }
  destruct He as [-> ->].
  change (let '(b, e, p) := (hd t body, @None error, p) in
          if TrimSpaces (rConfig r)
          then eat_spaces (at_end (br r)) b e p else (b, e, p))
    with (if TrimSpaces (rConfig r)
          then eat_spaces (at_end (br r)) (hd t body) None p
          else (hd t body, None, p)) in Hread.
  rewrite Hread. cbn [eq_EOF is_nil].
  apply Ascii.eqb_neq in Hq. rewrite Hq. cbn [andb].
  rewrite (Hscan _ _ eq_refl). cbn [is_nil negb andb eq_EOF].
  reflexivity.
Qed.

(** [parseCell] in unquoted mode when the input ends in the field: the
    field is returned with the zero terminator and no error. *)
Lemma parseCell_unquoted_at_end r b body :
  at_end (br r) = EOF ->
  pending (br r) = b :: body ->
  Forall (copied (rConfig r)) (b :: body) ->
  b <> DQUOTE ->
  (TrimSpaces (rConfig r) = true -> b <> SPACE) ->
  parseCell r
  = (firstn (length (b :: body) - count_trailing (rConfig r) 0 (b :: body))
       (b :: body),
     NUL, None, with_source r (b :: body) []).
Proof.
  intros Hfin Hp Hbody Hq Hs.
  pose proof (scan_from_body_end (rConfig r) (at_end (br r)) (b :: body)
                0 NUL [] Hbody) as Hscan.
  cbn [scan_from app] in Hscan.
  unfold parseCell. rewrite Hp. cbn [read_byte].
  apply Ascii.eqb_neq in Hq.
  destruct (TrimSpaces (rConfig r)) eqn:Et;
    [rewrite eat_spaces_stop by (apply Hs; reflexivity)|];
    cbn [eq_EOF is_nil]; rewrite Hq; cbn [andb];
    rewrite Hscan, Hfin; cbn [is_nil negb andb eq_EOF is_EOF];
    change (NUL =? LF)%char with false; rewrite andb_false_r; reflexivity.
Qed.

Lemma count_trailing_app cfg a : forall n b,
  count_trailing cfg n (a ++ b) = count_trailing cfg (count_trailing cfg n a) b.
Proof.
  induction a as [|x a IH]; intros n b; [reflexivity|].
  cbn [app count_trailing]. apply IH.
Qed.

Lemma count_trailing_off cfg body : forall n,
  TrimSpaces cfg = false -> count_trailing cfg n body = n.
Proof.
  induction body as [|b body IH]; intros n Ht; [reflexivity|].
  cbn [count_trailing]. rewrite Ht. apply IH, Ht.
Qed.

Lemma firstn_snoc (s : gostring) x :
  firstn (length (s ++ [x]) - 1) (s ++ [x]) = s.
Proof.
  rewrite length_app. cbn [length].
  replace (length s + 1 - 1) with (length s) by lia.
  rewrite firstn_app, Nat.sub_diag, firstn_all. cbn [firstn].
  apply app_nil_r.
Qed.

(** C3: in unquoted mode, when the field ends at a ['\r'] that is
    immediately followed by ['\n'] and the loop counted no trailing
    whitespace before that ['\r'], the returned text is the scanned text
    without exactly that one ['\r']; so it is when [TrimSpaces] is false,
    where nothing is ever counted. *)
Theorem parseCell_crlf_drops_one_cr r n core rest :
  n = 0 \/ TrimSpaces (rConfig r) = true ->
  pending (br r) = repeat SPACE n ++ core ++ CR :: LF :: rest ->
  Forall (copied (rConfig r)) (core ++ [CR]) ->
  hd CR core <> DQUOTE ->
  (TrimSpaces (rConfig r) = true -> hd CR core <> SPACE) ->
  count_trailing (rConfig r) 0 core = 0 ->
  parseCell r = (core, LF, None, with_source r (core ++ [CR]) rest).
Proof.
  intros Hn Hp Hbody Hq Hs Hcount.
  assert (Hhd : forall d, hd d (core ++ [CR]) = hd CR core)
    by (intros d; destruct core; reflexivity).
  assert (Hcut : cut_off (rConfig r) (core ++ [CR]) LF = 1).
  { unfold cut_off. rewrite last_last, count_trailing_app, Hcount.
    cbn [count_trailing]. rewrite !Ascii.eqb_refl.
    destruct (TrimSpaces (rConfig r)); reflexivity. }
  assert (Hgo : forall r0, rConfig r0 = rConfig r ->
            pending (br r0) = core ++ CR :: LF :: rest ->
            parseCell r0 = (core, LF, None, with_source r0 (core ++ [CR]) rest)).
  { intros r0 Hc Hp0.
    rewrite (parseCell_unquoted r0 (core ++ [CR]) LF rest).
    - rewrite Hc, Hcut, firstn_snoc. reflexivity.
    - rewrite Hp0, <- app_assoc. reflexivity.
    - rewrite Hc. exact Hbody.
    - left; reflexivity.
    - rewrite Hhd. exact Hq.
    - rewrite Hc, Hhd. exact Hs. }
  destruct Hn as [->|Ht].
  - apply Hgo; [reflexivity|exact Hp].
  - rewrite (parseCell_trim_leading r n _ Ht Hp).
    rewrite Hgo; reflexivity.
Qed.

Lemma parseCell_crlf_drops_one_cr_witness :
  let r := str2Reader (str "  b  " ++ [CR; LF] ++ str "  c") in
  parseCell r
  = (str "  b  ", LF, None, with_source r (str "  b  " ++ [CR]) (str "  c")).
Proof.
  apply (parseCell_crlf_drops_one_cr
           (str2Reader (str "  b  " ++ [CR; LF] ++ str "  c"))
           0 (str "  b  ") (str "  c")).
  - left; reflexivity.
  - reflexivity.
  - repeat (constructor; [split; discriminate|]). constructor.
  - discriminate.
  - intros H; discriminate H.
  - reflexivity.
Defined.

(** With trimming on, a ['\r'] before the newline is part of the counted
    run and goes with it. *)
Example parseCell_crlf_trim :
  map (fun s => cell_of (parseCell
                  (with_config (str2Reader s) (mkConfig true COMMA))))
    [ str "a" ++ [CR; LF]; str "a " ++ [CR; LF]; str " a b  " ++ [CR; CR; LF] ]
  = [ (str "a", None); (str "a", None); (str "a b", None) ].
Proof. reflexivity. Qed.

(* ===================================================================== *)
(** ** The row reader                                                     *)
(* ===================================================================== *)

Lemma Reader_eta r : mkReader (tmpbuf r) (br r) (rConfig r) = r.
Proof. destruct r; reflexivity. Qed.

(** A reader that only differs from [r] by its source. *)
Definition with_br (r : Reader) (rd : ByteReader) : Reader :=
  {| tmpbuf := tmpbuf r; br := rd; rConfig := rConfig r |}.

(** The three ways a pass of [ReadRow] ends once the cell is parsed and
    the byte [b] that follows it is known. *)
Lemma ReadRow_loop_after_cell r result c b r1 :
  parseCell r = (c, b, None, r1) ->
  b <> NUL -> b <> CR ->
  ReadRow_loop r result
  = if (b =? FieldDelim (rConfig r1))%char then ReadRow_loop r1 (result ++ [c])
    else if (b =? LF)%char then (result ++ [c], None, r1)
    else ([], Some (ErrExpected b), r1).
Proof.
  intros Hc Hn Hr. rewrite ReadRow_loop_eq. unfold ReadRow_body. rewrite Hc.
  apply Ascii.eqb_neq in Hn, Hr. rewrite Hn, Hr.
  cbn [rConfig tmpbuf br]. rewrite Reader_eta.
  destruct (b =? FieldDelim (rConfig r1))%char; [reflexivity|].
  destruct (b =? LF)%char; reflexivity.
Qed.

(** C7, as the code has it: when a cell's terminator is ['\r'], [ReadRow]
    consumes the following byte and goes on with it as the terminator:
    the field delimiter continues the row with the next cell, ['\n'] ends
    the row, and any other byte is a format error that returns no row. *)
Theorem ReadRow_after_carriage_return r result c r1 x rd2 :
  parseCell r = (c, CR, None, r1) ->
  ReadByte (br r1) = (x, None, rd2) ->
  ReadRow_loop r result
  = if (x =? FieldDelim (rConfig r1))%char
    then ReadRow_loop (with_br r1 rd2) (result ++ [c])
    else if (x =? LF)%char then (result ++ [c], None, with_br r1 rd2)
    else ([], Some (ErrExpected x), with_br r1 rd2).
Proof.
  intros Hc Hx. rewrite ReadRow_loop_eq. unfold ReadRow_body. rewrite Hc.
  change (CR =? NUL)%char with false. change (CR =? CR)%char with true.
  cbn iota. rewrite Hx. cbn [rConfig tmpbuf br]. fold (with_br r1 rd2).
  destruct (x =? FieldDelim (rConfig r1))%char; [reflexivity|].
  destruct (x =? LF)%char; reflexivity.
Qed.

Lemma ReadRow_after_carriage_return_witness :
  let r := str2Reader (DQUOTE :: str "four" ++ [DQUOTE; CR; LF] ++ str "5,6") in
  ReadRow_loop r [str "three"]
  = ([str "three"; str "four"], None,
     with_br (with_source r (str "four") (LF :: str "5,6"))
       (strings_NewReader (str "5,6"))).
Proof.
  apply (ReadRow_after_carriage_return
           (str2Reader (DQUOTE :: str "four" ++ [DQUOTE; CR; LF] ++ str "5,6"))
           [str "three"] (str "four")
           (with_source
              (str2Reader (DQUOTE :: str "four" ++ [DQUOTE; CR; LF] ++ str "5,6"))
              (str "four") (LF :: str "5,6"))
           LF (strings_NewReader (str "5,6"))).
  - reflexivity.
  - reflexivity.
Defined.

(** The byte after the ['\r'] need not be ['\n']: a delimiter there
    continues the row. *)
Lemma ReadRow_carriage_return_then_delimiter :
  row_of (ReadRow (str2Reader
            (DQUOTE :: str "a" ++ [DQUOTE; CR] ++ str ",b" ++ [LF])))
  = ([str "a"; str "b"], None).
Proof. reflexivity. Qed.

Lemma parseQuoted_loop_cons fin buf b p1 :
  parseQuoted_loop fin buf (b :: p1)
  = if (b =? DQUOTE)%char then
      match p1 with
      | b2 :: p2 =>
          if (b2 =? DQUOTE)%char then parseQuoted_loop fin (buf ++ [DQUOTE]) p2
          else let '(b3, _, p3) := eat_spaces fin b2 None p2 in
               (buf, b3, None, buf, p3)
      | [] => let '(b3, _, p3) := eat_spaces fin NUL (Some fin) [] in
              (buf, b3, None, buf, p3)
      end
    else parseQuoted_loop fin (buf ++ [b]) p1.
Proof. reflexivity. Qed.

(** [parseQuoted] never reports the clean end of input. *)
Lemma parseQuoted_loop_not_EOF fin p : forall buf s b e buf' p',
  parseQuoted_loop fin buf p = (s, b, e, buf', p') -> e <> Some EOF.
Proof.
  assert (H : forall n q, length q <= n -> forall buf s b e buf' p',
             parseQuoted_loop fin buf q = (s, b, e, buf', p') -> e <> Some EOF).
  { induction n as [|n IH]; intros q Hq buf s b e buf' p'.
    - destruct q; [|simpl in Hq; lia]. cbn [parseQuoted_loop].
      intros H; inversion H; subst. destruct fin; discriminate.
    - destruct q as [|y q]; [cbn [parseQuoted_loop];
        intros H; inversion H; subst; destruct fin; discriminate|].
      rewrite parseQuoted_loop_cons. simpl in Hq.
      destruct (y =? DQUOTE)%char; [|apply IH; lia].
      destruct q as [|y2 p2].
      + cbn [eat_spaces andb is_nil]. rewrite andb_false_r.
        intros H; inversion H; discriminate.
      + destruct (y2 =? DQUOTE)%char; [apply IH; simpl in Hq; lia|].
        destruct (eat_spaces fin y2 None p2) as [[? ?] ?].
        intros H; inversion H; discriminate. }
  intros buf. apply (H (length p)). lia.
Qed.

(** C2, as the code has it.  When the cell scanner returns a field with
    the zero terminator and no error, [ReadRow] returns the row with that
    field and no error; if the source is then at its end, the next
    [ReadRow] reports [io.EOF] with no row.  When the cell scanner itself
    reports [io.EOF], at the start of a cell, [ReadRow] returns [io.EOF]
    in that same call, together with the row and one more empty field if
    the row already had a field, and with no row otherwise. *)
Theorem ReadRow_at_end_of_input r result c b e r1 :
  parseCell r = (c, b, e, r1) ->
  (e = None -> b = NUL ->
     ReadRow_loop r result = (result ++ [c], None, r1)
     /\ (pending (br r1) = [] -> at_end (br r1) = EOF ->
         row_of (ReadRow r1) = ([], Some EOF)))
  /\ (e = Some EOF ->
      c = []
      /\ ReadRow_loop r result
         = (if 0 <? length result then result ++ [[]] else [], Some EOF, r1)).
Proof.
  intros Hc. split.
  - intros -> ->. split.
    + rewrite ReadRow_loop_eq. unfold ReadRow_body. rewrite Hc. reflexivity.
    + intros Hp Hfin. unfold ReadRow. rewrite ReadRow_loop_eq.
      unfold ReadRow_body, parseCell. rewrite Hp, Hfin.
      destruct (TrimSpaces (rConfig r1)); reflexivity.
  - intros ->.
    assert (Hempty : c = []).
    { revert Hc. unfold parseCell.
      destruct (read_byte (at_end (br r)) (pending (br r))) as [[b0 e0] p0].
      destruct (if TrimSpaces (rConfig r)
                then eat_spaces (at_end (br r)) b0 e0 p0
                else (b0, e0, p0)) as [[b1 e1] p1].
      destruct (eq_EOF e1); [intros H; inversion H; reflexivity|].
      destruct ((b1 =? DQUOTE)%char && is_nil e1).
      - unfold parseQuoted. cbn [with_source br pending at_end].
        destruct (parseQuoted_loop (at_end (br r)) [] p1)
          as [[[[s qb] qe] qbuf] qp] eqn:Hq.
        apply parseQuoted_loop_not_EOF in Hq.
        intros H; inversion H; subst. contradiction.
      - destruct (scan_unquoted (rConfig r) (at_end (br r)) 0 NUL [] b1 e1 p1)
          as [[[[[t l] buf] ub] ue] up].
        destruct (negb (is_nil ue) && negb (eq_EOF ue));
          intros H; inversion H; reflexivity. }
    split; [exact Hempty|]. subst c.
    rewrite ReadRow_loop_eq. unfold ReadRow_body. rewrite Hc. cbn [is_EOF andb].
    destruct result; reflexivity.
Qed.

Lemma ReadRow_at_end_of_input_witness :
  let r := str2Reader (str "6") in
  let r0 := str2Reader [] in
  (ReadRow_loop r [str "5"]
   = ([str "5"; str "6"], None, with_source r (str "6") [])
   /\ row_of (ReadRow (with_source r (str "6") [])) = ([], Some EOF))
  /\ ReadRow_loop r0 [str "a"]
     = ([str "a"; []], Some EOF, with_source r0 [] []).
Proof.
  split.
  - destruct (ReadRow_at_end_of_input (str2Reader (str "6")) [str "5"]
                (str "6") NUL None
                (with_source (str2Reader (str "6")) (str "6") [])
                eq_refl) as [Hrow _].
    destruct (Hrow eq_refl eq_refl) as [H1 H2].
    split; [exact H1 | exact (H2 eq_refl eq_refl)].
  - destruct (ReadRow_at_end_of_input (str2Reader []) [str "a"]
                [] NUL (Some EOF) (with_source (str2Reader []) [] [])
                eq_refl) as [_ Heof].
    destruct (Heof eq_refl) as [_ H]. exact H.
Defined.

(** The row and the end of input come back from one call when the input
    ends right after a delimiter. *)
Lemma ReadRow_returns_row_with_EOF :
  row_of (ReadRow (str2Reader (str "a,"))) = ([str "a"; []], Some EOF).
Proof. reflexivity. Qed.

(** C9: decoding an empty input with [ReadAll] yields a table of zero
    rows and no error. *)
Theorem ReadAll_empty_input :
  ReadAll (strings_NewReader []) = ([], None).
Proof. reflexivity. Qed.

(* ===================================================================== *)
(** ** The cell writer                                                    *)
(* ===================================================================== *)

(** With an ASCII delimiter, [writeCell] quotes exactly the fields that
    start or end with a space or hold a newline, a double-quote, a tab or
    the delimiter, and writes every other field as it is. *)
Lemma writeCell_ascii w cell :
  (byte_val (FieldDelim (wConfig w)) < 0x80)%Z ->
  writeCell w cell
  = (None,
     mkWriter
       (out w ++
          if edge_space cell || existsb (special (FieldDelim (wConfig w))) cell
          then DQUOTE :: doubled cell ++ [DQUOTE] else cell)
       (wConfig w)).
Proof.
  intros Hd. rewrite writeCell_out. unfold cell_bytes.
  rewrite needsQuotes_ascii by assumption. reflexivity.
Qed.

(** A carriage return alone is no reason to quote. *)
Example writeCell_carriage_return :
  writeCell (NewWriter []) (str "a" ++ [CR] ++ str "b")
  = (None, mkWriter (str "a" ++ [CR] ++ str "b") DefaultConfig).
Proof. reflexivity. Qed.

(** C4 at a delimiter of 0x80 or more: [needsQuotes] compares the
    delimiter with the runes of the field, so the field made of the
    delimiter byte 0xE9 alone, which is no valid UTF-8, is written
    without quotes, and the reader of the same configuration splits it
    into two empty fields. *)
Theorem needsQuotes_misses_delimiter_byte :
  let cfg := mkConfig false "233"%char in
  let cell := ["233"%char] in
  existsb (special (FieldDelim cfg)) cell = true
  /\ needsQuotes cfg cell = false
  /\ writeCell (mkWriter [] cfg) cell = (None, mkWriter cell cfg)
  /\ row_of (ReadRow (with_config (str2Reader (row_bytes cfg [cell])) cfg))
     = ([[]; []], None).
Proof. repeat split. Qed.

(** C10 at a delimiter of 0x80 or more: the field holding the UTF-8
    encoding of U+00E9 has no space at either end and none of the bytes
    that call for quotes, the delimiter byte 0xE9 included, yet
    [needsQuotes] finds the rune 0xE9 equal to the delimiter and the
    field is written in quotes. *)
Theorem needsQuotes_quotes_rune_of_delimiter :
  let cfg := mkConfig false "233"%char in
  let cell := ["195"%char; "169"%char] in
  edge_space cell = false
  /\ existsb (special (FieldDelim cfg)) cell = false
  /\ needsQuotes cfg cell = true
  /\ writeCell (mkWriter [] cfg) cell
     = (None, mkWriter (DQUOTE :: cell ++ [DQUOTE]) cfg).
Proof. repeat split. Qed.

(** C8, as the code has it: a quoted field with [n] double-quotes is
    written with [2n] double-quotes between the opening and the closing
    quote, [2n + 2] in all. *)
Theorem writeCell_quote_count cfg sink cell :
  needsQuotes cfg cell = true ->
  writeCell (mkWriter sink cfg) cell
  = (None, mkWriter (sink ++ DQUOTE :: doubled cell ++ [DQUOTE]) cfg)
  /\ count_quotes (doubled cell) = 2 * count_quotes cell
  /\ count_quotes (DQUOTE :: doubled cell ++ [DQUOTE]) = 2 * count_quotes cell + 2.
Proof.
  intros Hq. split; [|split].
  - rewrite writeCell_out. unfold cell_bytes. cbn [wConfig out].
    rewrite Hq. reflexivity.
  - apply count_quotes_doubled.
  - change (DQUOTE :: doubled cell ++ [DQUOTE])
      with ([DQUOTE] ++ doubled cell ++ [DQUOTE]).
    rewrite !count_quotes_app, count_quotes_doubled.
    change (count_quotes [DQUOTE]) with 1. lia.
Qed.

Lemma writeCell_quote_count_witness :
  let cell := str "Hi, " ++ [DQUOTE] ++ str "mr" ++ [DQUOTE] ++ str " silly" in
  writeCell (mkWriter [] DefaultConfig) cell
  = (None, mkWriter ([] ++ DQUOTE :: doubled cell ++ [DQUOTE]) DefaultConfig)
  /\ count_quotes (doubled cell) = 2 * count_quotes cell
  /\ count_quotes (DQUOTE :: doubled cell ++ [DQUOTE]) = 2 * count_quotes cell + 2.
Proof.
  apply (writeCell_quote_count DefaultConfig []
           (str "Hi, " ++ [DQUOTE] ++ str "mr" ++ [DQUOTE] ++ str " silly")).
  reflexivity.
Defined.

(** The field of [a], a double-quote and [b] has one double-quote and is
    written with four. *)
Lemma writeCell_quote_count_with_enclosing_quotes :
  let cell := str "a" ++ [DQUOTE] ++ str "b" in
  needsQuotes DefaultConfig cell = true
  /\ count_quotes cell = 1
  /\ count_quotes (out (snd (writeCell (NewWriter []) cell))) = 4
  /\ 4 <> 2 * count_quotes cell.
Proof. repeat split. discriminate. Qed.

(* ===================================================================== *)
(** ** Writing a table and reading it back                                *)
(* ===================================================================== *)

Lemma DefaultConfig_ascii : (byte_val (FieldDelim DefaultConfig) < 0x80)%Z.
Proof. reflexivity. Qed.

(** What [needsQuotes] has ruled out of a field it leaves unquoted. *)
Lemma unquoted_field cell :
  needsQuotes DefaultConfig cell = false ->
  Forall (copied DefaultConfig) cell
  /\ (forall t, t <> DQUOTE -> hd t cell <> DQUOTE).
Proof.
  rewrite (needsQuotes_ascii _ _ DefaultConfig_ascii).
  intros H. apply orb_false_elim in H as [_ H].
  assert (Hall : Forall (fun b => special COMMA b = false) cell).
  { apply Forall_forall. intros b Hb.
    destruct (special COMMA b) eqn:E; [|reflexivity].
    assert (existsb (special COMMA) cell = true)
      by (apply existsb_exists; exists b; split; assumption).
    cbn [FieldDelim DefaultConfig] in H. congruence. }
  split.
  - eapply Forall_impl; [|exact Hall]. intros b Hb. unfold special in Hb.
    apply orb_false_elim in Hb as [Hb Hd].
    apply orb_false_elim in Hb as [Hb _].
    apply orb_false_elim in Hb as [Hb _].
    split; apply Ascii.eqb_neq; assumption.
  - intros t Ht. destruct cell as [|b cell]; [exact Ht|].
    inversion Hall as [|? ? Hb _]; subst. cbn [hd]. unfold special in Hb.
    apply orb_false_elim in Hb as [Hb _].
    apply orb_false_elim in Hb as [Hb _].
    apply orb_false_elim in Hb as [_ Hb].
    apply Ascii.eqb_neq; assumption.
Qed.

(** A field the reader gets back whole when the byte [t] follows it:
    written in quotes, or followed by the delimiter, or not ending with a
    carriage return. *)
Definition survives (cell : gostring) (t : byte) : Prop :=
  needsQuotes DefaultConfig cell = true \/ t <> LF \/ last cell NUL <> CR.

Lemma parseCell_cell_bytes r cell t rest :
  rConfig r = DefaultConfig ->
  pending (br r) = cell_bytes DefaultConfig cell ++ t :: rest ->
  t = COMMA \/ t = LF ->
  survives cell t ->
  exists buf, parseCell r = (cell, t, None, with_source r buf rest).
Proof.
  intros Hcfg Hp Ht Hs. unfold cell_bytes in Hp.
  destruct (needsQuotes DefaultConfig cell) eqn:Hq.
  - exists cell.
    apply (parseCell_quoted_field r cell 0 t rest).
    + rewrite Hp. cbn [repeat app]. rewrite <- app_assoc. reflexivity.
    + destruct Ht as [->| ->]; discriminate.
    + intros _. destruct Ht as [->| ->]; discriminate.
  - destruct (unquoted_field cell Hq) as [Hbody Hhd].
    exists cell.
    rewrite (parseCell_unquoted r cell t rest Hp).
    + assert (Hcut : cut_off (rConfig r) cell t = 0).
      { unfold cut_off. rewrite Hcfg.
        rewrite count_trailing_off by reflexivity.
        destruct Hs as [Hs|[Hs|Hs]]; [congruence| |].
        - apply Ascii.eqb_neq in Hs. rewrite Hs, andb_false_r. reflexivity.
        - apply Ascii.eqb_neq in Hs. rewrite Hs. reflexivity. }
      rewrite Hcut, Nat.sub_0_r, firstn_all. reflexivity.
    + rewrite Hcfg. exact Hbody.
    + rewrite Hcfg. destruct Ht as [->| ->]; [right|left]; reflexivity.
    + apply Hhd. destruct Ht as [->| ->]; discriminate.
    + rewrite Hcfg. intros H; discriminate H.
Qed.

Lemma cells_bytes_later cfg row : forall i j,
  cells_bytes cfg (S i) row = cells_bytes cfg (S j) row.
Proof.
  induction row as [|cell row IH]; intros i j; [reflexivity|].
  cbn [cells_bytes]. rewrite (IH (S i) (S j)). reflexivity.
Qed.

(** A row that comes back: it has a field, and its last field survives
    the newline. *)
Definition row_survives (row : list gostring) : Prop :=
  row <> [] /\ survives (last row []) LF.

Lemma ReadRow_loop_cells cs : forall c acc r rest,
  rConfig r = DefaultConfig ->
  pending (br r)
    = cell_bytes DefaultConfig c ++ cells_bytes DefaultConfig 1 cs ++ LF :: rest ->
  survives (last (c :: cs) []) LF ->
  exists r',
    ReadRow_loop r acc = (acc ++ c :: cs, None, r')
    /\ br r' = mkByteReader rest (at_end (br r))
    /\ rConfig r' = DefaultConfig.
Proof.
  induction cs as [|c2 cs IH]; intros c acc r rest Hcfg Hp Hlast.
  - cbn [cells_bytes app] in Hp.
    destruct (parseCell_cell_bytes r c LF rest Hcfg Hp) as [buf Hc];
      [right; reflexivity|exact Hlast|].
    exists (with_source r buf rest).
    rewrite (ReadRow_loop_after_cell r acc c LF _ Hc) by discriminate.
    cbn [with_source rConfig]. rewrite Hcfg.
    repeat split.
  - cbn [cells_bytes app] in Hp.
    change (if 0 <? 1 then [FieldDelim DefaultConfig] else [])
      with [COMMA] in Hp. cbn [app] in Hp. rewrite <- app_assoc in Hp.
    destruct (parseCell_cell_bytes r c COMMA _ Hcfg Hp) as [buf Hc];
      [left; reflexivity|right; left; discriminate|].
    rewrite (ReadRow_loop_after_cell r acc c COMMA _ Hc) by discriminate.
    cbn [with_source rConfig]. rewrite Hcfg.
    change (COMMA =? FieldDelim DefaultConfig)%char with true. cbn iota.
    match goal with |- context [ReadRow_loop ?r1 _] =>
      destruct (IH c2 (acc ++ [c]) r1 rest) as [r' [H1 [H2 H3]]] end.
    + exact Hcfg.
    + cbn [br pending]. rewrite (cells_bytes_later _ cs 1 0). reflexivity.
    + exact Hlast.
    + exists r'. rewrite H1, <- app_assoc. repeat split; assumption.
Qed.

Lemma ReadRow_row_bytes r row rest :
  rConfig r = DefaultConfig ->
  pending (br r) = row_bytes DefaultConfig row ++ rest ->
  row_survives row ->
  exists r',
    ReadRow r = (row, None, r')
    /\ br r' = mkByteReader rest (at_end (br r))
    /\ rConfig r' = DefaultConfig.
Proof.
  intros Hcfg Hp [Hne Hlast]. destruct row as [|c cs]; [contradiction|].
  unfold ReadRow. apply (ReadRow_loop_cells cs c [] r rest Hcfg); [|exact Hlast].
  rewrite Hp. unfold row_bytes. cbn [cells_bytes].
  change (if 0 <? 0 then [FieldDelim DefaultConfig] else []) with (@nil byte).
  cbn [app]. rewrite <- !app_assoc. reflexivity.
Qed.

Lemma ReadRow_nothing_left r :
  pending (br r) = [] -> at_end (br r) = EOF ->
  exists r', ReadRow r = ([], Some EOF, r').
Proof.
  intros Hp Hfin. unfold ReadRow. rewrite ReadRow_loop_eq.
  unfold ReadRow_body, parseCell. rewrite Hp, Hfin.
  destruct (TrimSpaces (rConfig r)); eexists; reflexivity.
Qed.

Lemma ReadAll_loop_table rows : forall acc r,
  rConfig r = DefaultConfig ->
  at_end (br r) = EOF ->
  pending (br r) = table_bytes DefaultConfig rows ->
  Forall row_survives rows ->
  exists r', ReadAll_loop r acc = (acc ++ rows, None, r').
Proof.
  induction rows as [|row rows IH]; intros acc r Hcfg Hfin Hp Hrows.
  - destruct (ReadRow_nothing_left r Hp Hfin) as [r' Hr].
    exists r'. rewrite ReadAll_loop_eq. unfold ReadAll_body. rewrite Hr.
    rewrite app_nil_r. reflexivity.
  - inversion Hrows as [|? ? Hrow Hrest]; subst.
    cbn [table_bytes flat_map] in Hp.
    destruct (ReadRow_row_bytes r row _ Hcfg Hp Hrow) as [r1 [Hr [Hbr Hc1]]].
    rewrite ReadAll_loop_eq. unfold ReadAll_body. rewrite Hr.
    destruct (IH (acc ++ [row]) r1) as [r' Hr']; try assumption.
    + rewrite Hbr. exact Hfin.
    + rewrite Hbr. reflexivity.
    + exists r'. rewrite Hr', <- app_assoc. reflexivity.
Qed.

(** C1, as the code has it: a table in which every row has at least one
    field, and in which the last field of a row does not end with a
    carriage return unless it is written in quotes, is read back by
    [ReadAll] exactly as it was given to [WriteAll], both with the default
    configuration. *)
Theorem WriteAll_ReadAll_roundtrip rows :
  Forall row_survives rows ->
  exists bytes,
    WriteAll [] rows = (None, bytes)
    /\ ReadAll (strings_NewReader bytes) = (rows, None).
Proof.
  intros Hrows. exists (table_bytes DefaultConfig rows).
  split; [apply WriteAll_out|].
  unfold ReadAll, Reader_ReadAll.
  destruct (ReadAll_loop_table rows []
              (NewReader (bufio_NewReader
                 (strings_NewReader (table_bytes DefaultConfig rows))))
              eq_refl eq_refl eq_refl Hrows) as [r' Hr].
  rewrite Hr. reflexivity.
Qed.

Definition sample_table : list (list gostring) :=
  [ [str " A "; str " "; []];
    [str "a,b" ++ [LF] ++ str "c"; [CR] ++ str "x"; [DQUOTE; CR]];
    [[TAB; NUL]; str "caf" ++ ["195"; "169"]%char] ].

Lemma WriteAll_ReadAll_roundtrip_witness :
  exists bytes,
    WriteAll [] sample_table = (None, bytes)
    /\ ReadAll (strings_NewReader bytes) = (sample_table, None).
Proof.
  apply (WriteAll_ReadAll_roundtrip sample_table).
  repeat (constructor;
          [split; [discriminate
                  | first [left; reflexivity | right; right; discriminate]]|]).
  constructor.
Defined.

(** Two tables that do not come back: a row without fields is read as a
    row of one empty field, and an unquoted last field loses the carriage
    return it ends with. *)
Lemma WriteAll_ReadAll_not_identity :
  (WriteAll [] [[]] = (None, [LF])
   /\ ReadAll (strings_NewReader [LF]) = ([[[]]], None)
   /\ [[@nil byte]] <> [[]])
  /\ (WriteAll [] [[str "a" ++ [CR]]] = (None, str "a" ++ [CR; LF])
      /\ ReadAll (strings_NewReader (str "a" ++ [CR; LF])) = ([[str "a"]], None)
      /\ [[str "a"]] <> [[str "a" ++ [CR]]]).
Proof. repeat split; discriminate. Qed.

(* ===================================================================== *)
(** ** Reading back what the writer wrote, for any configuration          *)
(* ===================================================================== *)

(** A delimiter the reader can tell from the bytes it gives a meaning of
    its own: an ASCII byte other than the zero byte, the line feed, the
    carriage return, the space and the double-quote. *)
Definition plain_delim (d : byte) : bool :=
  (byte_val d <? 0x80)%Z
  && negb (d =? NUL)%char && negb (d =? LF)%char && negb (d =? CR)%char
  && negb (d =? SPACE)%char && negb (d =? DQUOTE)%char.

Lemma plain_delim_spec d :
  plain_delim d = true ->
  (byte_val d < 0x80)%Z
  /\ d <> NUL /\ d <> LF /\ d <> CR /\ d <> SPACE /\ d <> DQUOTE.
Proof.
  unfold plain_delim. intros H.
  repeat (apply andb_prop in H as [H ?]).
  repeat match goal with
         | Hn : negb _ = true |- _ =>
             apply negb_true_iff in Hn; apply Ascii.eqb_neq in Hn
         end.
  apply Z.ltb_lt in H. repeat split; assumption.
Qed.

(** What [parseCell] returns for a field that [writeCell] wrote and the
    byte [t] follows: a quoted field whole, an unquoted one without the
    bytes [parseCell] cuts off its end. *)
Definition read_back (cfg : Config) (cell : gostring) (t : byte) : gostring :=
  if needsQuotes cfg cell then cell
  else firstn (length cell - cut_off cfg cell t) cell.

(** What [needsQuotes] has ruled out of a field it leaves unquoted, for an
    ASCII delimiter. *)
Lemma unquoted_field_ascii cfg cell :
  (byte_val (FieldDelim cfg) < 0x80)%Z ->
  needsQuotes cfg cell = false ->
  Forall (copied cfg) cell
  /\ (forall t, t <> DQUOTE -> hd t cell <> DQUOTE)
  /\ (forall t, t <> SPACE -> hd t cell <> SPACE)
  /\ last cell NUL <> SPACE.
Proof.
  intros Hd. rewrite (needsQuotes_ascii _ _ Hd).
  intros H. apply orb_false_elim in H as [Hedge H].
  assert (Hall : Forall (fun b => special (FieldDelim cfg) b = false) cell).
  { apply Forall_forall. intros b Hb.
    destruct (special (FieldDelim cfg) b) eqn:E; [|reflexivity].
    assert (existsb (special (FieldDelim cfg)) cell = true)
      by (apply existsb_exists; exists b; split; assumption).
    congruence. }
  assert (Hsp : cell <> [] ->
                hd NUL cell <> SPACE /\ last cell NUL <> SPACE).
  { intros Hne. unfold edge_space in Hedge.
    destruct cell as [|b cell]; [contradiction|].
    cbn [length] in Hedge. change (0 <? S (length cell)) with true in Hedge.
    cbn [andb] in Hedge. apply orb_false_elim in Hedge as [H1 H2].
    split; apply Ascii.eqb_neq; assumption. }
  split; [|split; [|split]].
  - eapply Forall_impl; [|exact Hall]. intros b Hb. unfold special in Hb.
    apply orb_false_elim in Hb as [Hb Hdl].
    apply orb_false_elim in Hb as [Hb _].
    apply orb_false_elim in Hb as [Hb _].
    split; apply Ascii.eqb_neq; assumption.
  - intros t Ht. destruct cell as [|b cell]; [exact Ht|].
    inversion Hall as [|? ? Hb _]; subst. cbn [hd]. unfold special in Hb.
    apply orb_false_elim in Hb as [Hb _].
    apply orb_false_elim in Hb as [Hb _].
    apply orb_false_elim in Hb as [_ Hb].
    apply Ascii.eqb_neq; assumption.
  - intros t Ht. destruct cell as [|b cell]; [exact Ht|].
    apply (Hsp ltac:(discriminate)).
  - destruct cell as [|b cell]; [discriminate|].
    apply (Hsp ltac:(discriminate)).
Qed.

Lemma parseCell_written r cell t rest :
  plain_delim (FieldDelim (rConfig r)) = true ->
  pending (br r) = cell_bytes (rConfig r) cell ++ t :: rest ->
  stops (rConfig r) t ->
  exists buf,
    parseCell r = (read_back (rConfig r) cell t, t, None, with_source r buf rest).
Proof.
  intros Hd Hp Ht.
  destruct (plain_delim_spec _ Hd) as [Hascii [Hnul [Hlf [Hcr [Hsp Hdq]]]]].
  assert (Htq : t <> DQUOTE) by (destruct Ht as [->| ->]; [discriminate|exact Hdq]).
  assert (Hts : t <> SPACE) by (destruct Ht as [->| ->]; [discriminate|exact Hsp]).
  unfold cell_bytes in Hp. unfold read_back.
  destruct (needsQuotes (rConfig r) cell) eqn:Hq.
  - exists cell.
    apply (parseCell_quoted_field r cell 0 t rest).
    + rewrite Hp. cbn [repeat app]. rewrite <- app_assoc. reflexivity.
    + exact Hts.
    + intros _. exact Htq.
  - destruct (unquoted_field_ascii _ cell Hascii Hq) as [Hbody [Hhd [Hhs _]]].
    exists cell.
    apply (parseCell_unquoted r cell t rest Hp Hbody Ht).
    + apply Hhd, Htq.
    + intros _. apply Hhs, Hts.
Qed.

Lemma parseCell_written_at_end r cell :
  plain_delim (FieldDelim (rConfig r)) = true ->
  at_end (br r) = EOF ->
  pending (br r) = cell_bytes (rConfig r) cell ->
  cell <> [] ->
  exists buf,
    parseCell r = (read_back (rConfig r) cell NUL, NUL, None, with_source r buf []).
Proof.
  intros Hd Hfin Hp Hne.
  destruct (plain_delim_spec _ Hd) as [Hascii _].
  unfold cell_bytes in Hp. unfold read_back.
  destruct (needsQuotes (rConfig r) cell) eqn:Hq.
  - exists cell. apply (parseCell_quoted_at_end r cell 0).
    rewrite Hp. cbn [repeat]. reflexivity.
  - destruct (unquoted_field_ascii _ cell Hascii Hq) as [Hbody [Hhd [Hhs _]]].
    destruct cell as [|b body]; [contradiction|].
    exists (b :: body).
    rewrite (parseCell_unquoted_at_end r b body Hfin Hp Hbody).
    + unfold cut_off. change (NUL =? LF)%char with false.
      rewrite andb_false_r. reflexivity.
    + apply (Hhd NUL). discriminate.
    + intros _. apply (Hhs NUL). discriminate.
Qed.

(** A row of [writeCell] outputs, each followed by the delimiter. *)
Definition delimited (cfg : Config) (cells : list gostring) : gostring :=
  flat_map (fun c => cell_bytes cfg c ++ [FieldDelim cfg]) cells.

Lemma cells_bytes_snoc cfg cells : forall i c,
  cells_bytes cfg i (cells ++ [c])
  = (if 0 <? i then [FieldDelim cfg] else [])
      ++ delimited cfg cells ++ cell_bytes cfg c.
Proof.
  induction cells as [|x cells IH]; intros i c.
  - cbn [app cells_bytes delimited flat_map]. rewrite app_nil_r. reflexivity.
  - cbn [app cells_bytes delimited flat_map]. rewrite IH.
    change (0 <? S i) with true. cbn iota.
    fold (delimited cfg cells). rewrite <- !app_assoc. reflexivity.
Qed.

(** The reader [r'] is [r] moved on to the pending bytes [p]. *)
Definition moved_to (r r' : Reader) (p : gostring) : Prop :=
  br r' = mkByteReader p (at_end (br r)) /\ rConfig r' = rConfig r.

Lemma moved_to_refl r : moved_to r r (pending (br r)).
Proof. destruct r as [buf [p fin] cfg]. split; reflexivity. Qed.

Lemma moved_to_trans r r1 r2 p1 p2 :
  moved_to r r1 p1 -> moved_to r1 r2 p2 -> moved_to r r2 p2.
Proof.
  intros [H1 H2] [H3 H4]. split.
  - rewrite H3, H1. reflexivity.
  - rewrite H4, H2. reflexivity.
Qed.

Lemma moved_to_with_source r buf p : moved_to r (with_source r buf p) p.
Proof. split; reflexivity. Qed.

(** The fields [ReadRow] collects from delimited cells. *)
Definition read_delimited (cfg : Config) (cells : list gostring)
  : list gostring :=
  map (fun c => read_back cfg c (FieldDelim cfg)) cells.

(** [ReadRow] takes the delimited fields one after the other and goes on
    with what follows them. *)
Lemma ReadRow_loop_delimited cells : forall acc r tail,
  plain_delim (FieldDelim (rConfig r)) = true ->
  pending (br r) = delimited (rConfig r) cells ++ tail ->
  exists r1,
    moved_to r r1 tail
    /\ ReadRow_loop r acc
       = ReadRow_loop r1 (acc ++ read_delimited (rConfig r) cells).
Proof.
  induction cells as [|c cells IH]; intros acc r tail Hd Hp.
  - exists r. cbn [delimited flat_map app] in Hp. rewrite <- Hp.
    split; [apply moved_to_refl|].
    cbn [read_delimited map]. rewrite app_nil_r. reflexivity.
  - destruct (plain_delim_spec _ Hd) as [_ [Hnul [Hlf [Hcr _]]]].
    cbn [delimited flat_map] in Hp. fold (delimited (rConfig r) cells) in Hp.
    rewrite <- !app_assoc in Hp. cbn [app] in Hp.
    destruct (parseCell_written r c (FieldDelim (rConfig r)) _ Hd Hp) as [buf Hc];
      [right; reflexivity|].
    rewrite (ReadRow_loop_after_cell r acc _ _ _ Hc) by assumption.
    cbn [with_source rConfig]. rewrite Ascii.eqb_refl.
    match goal with |- context [ReadRow_loop ?r1 ?acc1] =>
      destruct (IH acc1 r1 tail Hd eq_refl) as [r2 [Hm Hr]] end.
    exists r2. split.
    + eapply moved_to_trans; [apply moved_to_with_source|exact Hm].
    + rewrite Hr. cbn [rConfig read_delimited map].
      rewrite <- app_assoc. reflexivity.
Qed.

Lemma ReadRow_loop_last_cell r acc c rest :
  plain_delim (FieldDelim (rConfig r)) = true ->
  pending (br r) = cell_bytes (rConfig r) c ++ LF :: rest ->
  exists r1,
    moved_to r r1 rest
    /\ ReadRow_loop r acc = (acc ++ [read_back (rConfig r) c LF], None, r1).
Proof.
  intros Hd Hp.
  destruct (plain_delim_spec _ Hd) as [_ [_ [Hlf _]]].
  destruct (parseCell_written r c LF rest Hd Hp) as [buf Hc];
    [left; reflexivity|].
  exists (with_source r buf rest). split; [apply moved_to_with_source|].
  rewrite (ReadRow_loop_after_cell r acc _ _ _ Hc) by discriminate.
  cbn [with_source rConfig].
  assert (E : (LF =? FieldDelim (rConfig r))%char = false)
    by (apply Ascii.eqb_neq; intros H; apply Hlf; symmetry; exact H).
  rewrite E. reflexivity.
Qed.

Lemma ReadRow_loop_last_cell_at_end r acc c :
  plain_delim (FieldDelim (rConfig r)) = true ->
  at_end (br r) = EOF ->
  pending (br r) = cell_bytes (rConfig r) c ->
  c <> [] ->
  exists r1,
    moved_to r r1 []
    /\ ReadRow_loop r acc = (acc ++ [read_back (rConfig r) c NUL], None, r1).
Proof.
  intros Hd Hfin Hp Hne.
  destruct (parseCell_written_at_end r c Hd Hfin Hp Hne) as [buf Hc].
  exists (with_source r buf []). split; [apply moved_to_with_source|].
  rewrite ReadRow_loop_eq. unfold ReadRow_body. rewrite Hc. reflexivity.
Qed.

Lemma ReadRow_loop_nothing_left r acc :
  pending (br r) = [] -> at_end (br r) = EOF ->
  exists r1,
    moved_to r r1 []
    /\ ReadRow_loop r acc
       = (if 0 <? length acc then acc ++ [[]] else [], Some EOF, r1).
Proof.
  intros Hp Hfin. exists (with_source r [] []).
  split; [apply moved_to_with_source|].
  rewrite ReadRow_loop_eq. unfold ReadRow_body, parseCell. rewrite Hp, Hfin.
  destruct (TrimSpaces (rConfig r)); cbn; destruct acc; reflexivity.
Qed.

(** The fields [ReadRow] returns for a written row when the byte [t]
    follows its last field. *)
Definition read_cells (cfg : Config) (row : list gostring) (t : byte)
  : list gostring :=
  read_delimited cfg (removelast row) ++ [read_back cfg (last row []) t].

Lemma row_bytes_split cfg row :
  row_bytes cfg row
  = delimited cfg (removelast row) ++ cell_bytes cfg (last row []) ++ [LF].
Proof.
  unfold row_bytes. destruct row as [|c cs]; [reflexivity|].
  rewrite (app_removelast_last [] (l := c :: cs)) at 1 by discriminate.
  rewrite cells_bytes_snoc. cbn [Nat.ltb Nat.leb app].
  rewrite <- app_assoc. reflexivity.
Qed.

Lemma ReadRow_written r row rest :
  plain_delim (FieldDelim (rConfig r)) = true ->
  pending (br r) = row_bytes (rConfig r) row ++ rest ->
  exists r1,
    moved_to r r1 rest
    /\ ReadRow r = (read_cells (rConfig r) row LF, None, r1).
Proof.
  intros Hd Hp. rewrite row_bytes_split in Hp.
  rewrite <- !app_assoc in Hp. cbn [app] in Hp.
  destruct (ReadRow_loop_delimited (removelast row) [] r _ Hd Hp)
    as [r1 [[Hbr Hcfg] Hr]].
  assert (Hd1 : plain_delim (FieldDelim (rConfig r1)) = true)
    by (rewrite Hcfg; exact Hd).
  assert (Hp1 : pending (br r1)
                = cell_bytes (rConfig r1) (last row []) ++ LF :: rest)
    by (rewrite Hbr, Hcfg; reflexivity).
  destruct (ReadRow_loop_last_cell r1
              ([] ++ read_delimited (rConfig r) (removelast row))
              (last row []) rest Hd1 Hp1) as [r2 [Hm Hr2]].
  exists r2. split.
  - eapply moved_to_trans; [split; eassumption|exact Hm].
  - unfold ReadRow. rewrite Hr, Hr2, Hcfg. reflexivity.
Qed.

(** [ReadAll] takes the written rows one after the other and goes on with
    what follows them. *)
Lemma ReadAll_loop_written rows : forall acc r tail,
  plain_delim (FieldDelim (rConfig r)) = true ->
  pending (br r) = table_bytes (rConfig r) rows ++ tail ->
  exists r1,
    moved_to r r1 tail
    /\ ReadAll_loop r acc
       = ReadAll_loop r1
           (acc ++ map (fun row => read_cells (rConfig r) row LF) rows).
Proof.
  induction rows as [|row rows IH]; intros acc r tail Hd Hp.
  - exists r. cbn [table_bytes flat_map app] in Hp. rewrite <- Hp.
    split; [apply moved_to_refl|]. cbn [map]. rewrite app_nil_r. reflexivity.
  - cbn [table_bytes flat_map] in Hp. fold (table_bytes (rConfig r) rows) in Hp.
    rewrite <- app_assoc in Hp.
    destruct (ReadRow_written r row _ Hd Hp) as [r1 [[Hbr Hcfg] Hr]].
    rewrite ReadAll_loop_eq. unfold ReadAll_body. rewrite Hr.
    destruct (IH (acc ++ [read_cells (rConfig r) row LF]) r1 tail)
      as [r2 [Hm Hr2]].
    + rewrite Hcfg. exact Hd.
    + rewrite Hbr, Hcfg. reflexivity.
    + exists r2. split.
      * eapply moved_to_trans; [split; eassumption|exact Hm].
      * rewrite Hr2, Hcfg. cbn [map]. rewrite <- app_assoc. reflexivity.
Qed.

Lemma ReadAll_loop_nothing_left r acc :
  pending (br r) = [] -> at_end (br r) = EOF ->
  exists r1, ReadAll_loop r acc = (acc, None, r1).
Proof.
  intros Hp Hfin.
  destruct (ReadRow_loop_nothing_left r [] Hp Hfin) as [r1 [_ Hr]].
  exists r1. rewrite ReadAll_loop_eq. unfold ReadAll_body, ReadRow.
  rewrite Hr. reflexivity.
Qed.

(** A reader with the configuration [cfg] over the bytes [s]. *)
Definition reader_on (cfg : Config) (s : gostring) : Reader :=
  with_config (str2Reader s) cfg.

(** The bytes a writer with the configuration [cfg] writes for [rows]
    into an empty sink. *)
Definition written (cfg : Config) (rows : list (list gostring)) : gostring :=
  out (snd (Writer_WriteAll (mkWriter [] cfg) rows)).

Lemma written_table_bytes cfg rows : written cfg rows = table_bytes cfg rows.
Proof. unfold written. rewrite Writer_WriteAll_out. reflexivity. Qed.

Lemma count_trailing_none cfg body :
  last body NUL <> SPACE -> last body NUL <> CR ->
  count_trailing cfg 0 body = 0.
Proof.
  intros Hs Hc.
  destruct (TrimSpaces cfg) eqn:Ht; [|apply count_trailing_off, Ht].
  destruct body as [|b body] using rev_ind; [reflexivity|].
  rewrite last_last in Hs, Hc.
  rewrite count_trailing_app. cbn [count_trailing]. rewrite Ht.
  apply Ascii.eqb_neq in Hs, Hc. rewrite Hs, Hc. reflexivity.
Qed.

(** A written field that does not end with a carriage return is read
    back whole, whatever follows it. *)
Lemma read_back_whole cfg cell t :
  (byte_val (FieldDelim cfg) < 0x80)%Z ->
  needsQuotes cfg cell = true \/ last cell NUL <> CR ->
  read_back cfg cell t = cell.
Proof.
  intros Hd H. unfold read_back.
  destruct (needsQuotes cfg cell) eqn:Hq; [reflexivity|].
  destruct H as [H|Hcr]; [discriminate|].
  destruct (unquoted_field_ascii cfg cell Hd Hq) as [_ [_ [_ Hsp]]].
  unfold cut_off. rewrite (count_trailing_none cfg cell Hsp Hcr).
  apply Ascii.eqb_neq in Hcr. rewrite Hcr. cbn [andb].
  rewrite Nat.sub_0_r. apply firstn_all.
Qed.

(** Without trimming only a carriage return before the line feed is cut. *)
Lemma read_back_no_trim cfg cell t :
  TrimSpaces cfg = false ->
  read_back cfg cell t
  = if negb (needsQuotes cfg cell) && (last cell NUL =? CR)%char && (t =? LF)%char
    then removelast cell else cell.
Proof.
  intros Ht. unfold read_back, cut_off.
  rewrite (count_trailing_off cfg cell 0 Ht).
  destruct (needsQuotes cfg cell); [reflexivity|]. cbn [negb andb Nat.eqb].
  rewrite andb_true_r.
  destruct ((last cell NUL =? CR)%char && (t =? LF)%char).
  - rewrite removelast_firstn_len. f_equal. lia.
  - rewrite Nat.sub_0_r. apply firstn_all.
Qed.

Lemma read_back_length cfg cell t : length (read_back cfg cell t) <= length cell.
Proof.
  unfold read_back. destruct (needsQuotes cfg cell); [lia|].
  rewrite length_firstn. lia.
Qed.

Lemma read_delimited_whole cfg cells :
  (byte_val (FieldDelim cfg) < 0x80)%Z ->
  Forall (fun c => needsQuotes cfg c = true \/ last c NUL <> CR) cells ->
  read_delimited cfg cells = cells.
Proof.
  intros Hd H. unfold read_delimited.
  induction H as [|c cells Hc _ IH]; [reflexivity|].
  cbn [map]. rewrite IH, (read_back_whole cfg c _ Hd Hc). reflexivity.
Qed.

Lemma Forall_removelast {A} (P : A -> Prop) (l : list A) :
  Forall P l -> Forall P (removelast l).
Proof.
  induction 1 as [|x l Hx Hl IH]; [constructor|].
  destruct l as [|y l]; [constructor|].
  change (Forall P (x :: removelast (y :: l))). constructor; assumption.
Qed.

Lemma Forall_last {A} (P : A -> Prop) (l : list A) d :
  l <> [] -> Forall P l -> P (last l d).
Proof.
  intros Hne H. induction H as [|x l Hx Hl IH]; [contradiction|].
  destruct l as [|y l]; [exact Hx|].
  change (P (last (y :: l) d)). apply IH. discriminate.
Qed.

Lemma read_cells_whole cfg row t :
  (byte_val (FieldDelim cfg) < 0x80)%Z ->
  row <> [] ->
  Forall (fun c => needsQuotes cfg c = true \/ last c NUL <> CR) row ->
  read_cells cfg row t = row.
Proof.
  intros Hd Hne H. unfold read_cells.
  rewrite (read_delimited_whole cfg _ Hd (Forall_removelast _ _ H)).
  pose proof (Forall_last _ _ [] Hne H) as Hl. cbn beta in Hl.
  rewrite (read_back_whole cfg (last row []) t Hd Hl).
  symmetry. apply app_removelast_last, Hne.
Qed.

Lemma ReadAll_written cfg rows :
  plain_delim (FieldDelim cfg) = true ->
  row_of (Reader_ReadAll (reader_on cfg (written cfg rows)))
  = (map (fun row => read_cells cfg row LF) rows, None).
Proof.
  intros Hd. unfold Reader_ReadAll.
  destruct (ReadAll_loop_written rows [] (reader_on cfg (written cfg rows)) []
              Hd) as [r1 [[Hbr Hcfg] Hr]].
  - rewrite written_table_bytes, app_nil_r. reflexivity.
  - destruct (ReadAll_loop_nothing_left r1
                ([] ++ map (fun row => read_cells cfg row LF) rows)) as [r2 Hr2].
    + rewrite Hbr. reflexivity.
    + rewrite Hbr. reflexivity.
    + rewrite Hr. cbn [reader_on with_config rConfig].
      rewrite Hr2. reflexivity.
Qed.

(** A field that is quoted or does not end with a carriage return. *)
Definition keeps_end (cfg : Config) (c : gostring) : Prop :=
  needsQuotes cfg c = true \/ last c NUL <> CR.

(** Round trip for any configuration with a plain delimiter, trimming on
    or off: a table whose rows have at least one field, and whose fields
    do not end with a carriage return unless they are written in quotes,
    is read back by [Reader.ReadAll] exactly as [Writer.WriteAll] got it. *)
Theorem roundtrip_any_plain_config cfg rows :
  plain_delim (FieldDelim cfg) = true ->
  Forall (fun row => row <> [] /\ Forall (keeps_end cfg) row) rows ->
  fst (Writer_WriteAll (mkWriter [] cfg) rows) = None
  /\ row_of (Reader_ReadAll (reader_on cfg (written cfg rows))) = (rows, None).
Proof.
  intros Hd Hrows. split; [rewrite Writer_WriteAll_out; reflexivity|].
  rewrite (ReadAll_written cfg rows Hd). f_equal.
  destruct (plain_delim_spec _ Hd) as [Hascii _].
  induction Hrows as [|row rows [Hne Hrow] _ IH]; [reflexivity|].
  cbn [map]. rewrite IH, (read_cells_whole cfg row LF Hascii Hne Hrow).
  reflexivity.
Qed.

Definition semicolon_trim : Config := mkConfig true ";"%char.

Lemma roundtrip_any_plain_config_witness :
  fst (Writer_WriteAll (mkWriter [] semicolon_trim) sample_table) = None
  /\ row_of (Reader_ReadAll
               (reader_on semicolon_trim (written semicolon_trim sample_table)))
     = (sample_table, None).
Proof.
  apply (roundtrip_any_plain_config semicolon_trim sample_table).
  - reflexivity.
  - repeat (constructor;
      [split; [discriminate
              |repeat (constructor;
                 [first [left; reflexivity | right; discriminate]|]);
               constructor]|]).
    constructor.
Defined.

(** Whatever the table, reading back what was written with a plain
    delimiter gives no error, as many rows as were written and, in each
    row, as many fields as were written, an empty row counting as one
    field; and no field comes back longer than it was. *)
Theorem written_table_reads_back_row_by_row cfg rows :
  plain_delim (FieldDelim cfg) = true ->
  exists rows',
    row_of (Reader_ReadAll (reader_on cfg (written cfg rows))) = (rows', None)
    /\ Forall2 (fun row row' =>
                  length row' = Nat.max 1 (length row)
                  /\ Forall2 (fun c c' => length c' <= length c)
                       (match row with [] => [[]] | _ => row end) row')
               rows rows'.
Proof.
  intros Hd. exists (map (fun row => read_cells cfg row LF) rows).
  split; [apply ReadAll_written, Hd|].
  induction rows as [|row rows IH]; [constructor|].
  cbn [map]. constructor; [|exact IH].
  assert (Hcells : forall cells,
            Forall2 (fun c c' => length c' <= length c)
              cells (read_delimited cfg cells)).
  { induction cells as [|c cells IHc]; [constructor|].
    constructor; [apply read_back_length|exact IHc]. }
  unfold read_cells. split.
  - rewrite length_app. unfold read_delimited. rewrite length_map.
    cbn [length]. destruct row as [|c cs]; [reflexivity|].
    rewrite (app_removelast_last [] (l := c :: cs)) at 2 by discriminate.
    rewrite length_app. cbn [length]. lia.
  - destruct row as [|c cs].
    + cbn [removelast last read_delimited map app].
      constructor; [apply read_back_length|constructor].
    + rewrite (app_removelast_last [] (l := c :: cs)) at 1 by discriminate.
      apply Forall2_app; [apply Hcells|].
      constructor; [apply read_back_length|constructor].
Qed.

Lemma written_table_reads_back_row_by_row_witness :
  exists rows',
    row_of (Reader_ReadAll
              (reader_on DefaultConfig
                 (written DefaultConfig [[]; [str "a" ++ [CR]; str "b" ++ [CR]]])))
    = (rows', None)
    /\ Forall2 (fun row row' =>
                  length row' = Nat.max 1 (length row)
                  /\ Forall2 (fun c c' => length c' <= length c)
                       (match row with [] => [[]] | _ => row end) row')
               [[]; [str "a" ++ [CR]; str "b" ++ [CR]]] rows'.
Proof.
  apply (written_table_reads_back_row_by_row DefaultConfig
           [[]; [str "a" ++ [CR]; str "b" ++ [CR]]]).
  reflexivity.
Defined.

Lemma read_cells_fixed_default row :
  read_cells DefaultConfig row LF = row <-> row_survives row.
Proof.
  unfold row_survives, survives. split.
  - intros H. destruct row as [|c cs]; [discriminate H|].
    split; [discriminate|].
    destruct (needsQuotes DefaultConfig (last (c :: cs) [])) eqn:Hq;
      [left; reflexivity|]. right; right. intros Hcr.
    unfold read_cells in H.
    rewrite (app_removelast_last [] (l := c :: cs)) in H at 3 by discriminate.
    apply app_inj_tail in H as [_ H].
    rewrite read_back_no_trim in H by reflexivity.
    rewrite Hq, Hcr in H.
    change (negb false && (CR =? CR)%char && (LF =? LF)%char) with true in H.
    cbn iota in H.
    apply (f_equal (@length byte)) in H.
    rewrite removelast_firstn_len, length_firstn in H.
    destruct (last (c :: cs) []) as [|x f]; [discriminate Hcr|].
    cbn [length] in H. lia.
  - intros [Hne Hs]. unfold read_cells.
    assert (Hinit : read_delimited DefaultConfig (removelast row) = removelast row).
    { unfold read_delimited. induction (removelast row) as [|c cs IH];
        [reflexivity|].
      cbn [map]. rewrite IH, read_back_no_trim by reflexivity.
      change (FieldDelim DefaultConfig =? LF)%char with false.
      rewrite andb_false_r. reflexivity. }
    rewrite Hinit, read_back_no_trim by reflexivity.
    assert (E : negb (needsQuotes DefaultConfig (last row []))
                && (last (last row []) NUL =? CR)%char && (LF =? LF)%char = false).
    { destruct Hs as [Hs|[Hs|Hs]].
      - rewrite Hs. reflexivity.
      - contradiction Hs; reflexivity.
      - apply Ascii.eqb_neq in Hs. rewrite Hs, andb_false_r. reflexivity. }
    rewrite E. symmetry. apply app_removelast_last, Hne.
Qed.

(** With the default configuration a table comes back from [ReadAll]
    exactly as [WriteAll] got it if and only if every row has a field and
    no row's last field is written unquoted and ends with a carriage
    return. *)
Theorem default_roundtrip_exactly_when rows :
  ReadAll (strings_NewReader (snd (WriteAll [] rows))) = (rows, None)
  <-> Forall row_survives rows.
Proof.
  assert (Hread : ReadAll (strings_NewReader (snd (WriteAll [] rows)))
                  = (map (fun row => read_cells DefaultConfig row LF) rows, None)).
  { rewrite WriteAll_out. cbn [snd app].
    rewrite <- (written_table_bytes DefaultConfig rows).
    apply (ReadAll_written DefaultConfig rows). reflexivity. }
  rewrite Hread. clear Hread. split.
  - intros H. apply pair_equal_spec in H as [H _].
    induction rows as [|row rows IH]; [constructor|].
    cbn [map] in H. injection H as Hrow Hrest.
    constructor; [apply read_cells_fixed_default, Hrow|apply IH, Hrest].
  - intros H. f_equal.
    induction H as [|row rows Hrow _ IH]; [reflexivity|].
    cbn [map]. rewrite IH.
    apply read_cells_fixed_default in Hrow. rewrite Hrow. reflexivity.
Qed.

(* ===================================================================== *)
(** ** What follows the well-formed part of an input                      *)
(* ===================================================================== *)

(** The rows [ReadAll] collects from written rows. *)
Definition read_rows (cfg : Config) (rows : list (list gostring))
  : list (list gostring) :=
  map (fun row => read_cells cfg row LF) rows.

(** [ReadAll] when the [ReadRow] after the written rows reports an error:
    [io.EOF] ends the table, any other error discards it. *)
Lemma ReadAll_written_then_error cfg rows tail row e :
  plain_delim (FieldDelim cfg) = true ->
  (forall r, rConfig r = cfg -> at_end (br r) = EOF -> pending (br r) = tail ->
     exists r3, ReadRow r = (row, Some e, r3)) ->
  row_of (Reader_ReadAll (reader_on cfg (written cfg rows ++ tail)))
  = if is_EOF e then (read_rows cfg rows, None) else ([], Some e).
Proof.
  intros Hd Hrow. unfold Reader_ReadAll.
  destruct (ReadAll_loop_written rows []
              (reader_on cfg (written cfg rows ++ tail)) tail Hd)
    as [r1 [[Hbr Hcfg] Hr]].
  - rewrite written_table_bytes. reflexivity.
  - destruct (Hrow r1) as [r3 Hr3];
      [exact Hcfg | rewrite Hbr; reflexivity | rewrite Hbr; reflexivity |].
    rewrite Hr, ReadAll_loop_eq. unfold ReadAll_body. rewrite Hr3.
    destruct (is_EOF e); reflexivity.
Qed.

(** [ReadAll] when the [ReadRow] after the written rows returns a row and
    leaves nothing to read. *)
Lemma ReadAll_written_then_row cfg rows tail row :
  plain_delim (FieldDelim cfg) = true ->
  (forall r, rConfig r = cfg -> at_end (br r) = EOF -> pending (br r) = tail ->
     exists r3, moved_to r r3 [] /\ ReadRow r = (row, None, r3)) ->
  row_of (Reader_ReadAll (reader_on cfg (written cfg rows ++ tail)))
  = (read_rows cfg rows ++ [row], None).
Proof.
  intros Hd Hrow. unfold Reader_ReadAll.
  destruct (ReadAll_loop_written rows []
              (reader_on cfg (written cfg rows ++ tail)) tail Hd)
    as [r1 [[Hbr Hcfg] Hr]].
  - rewrite written_table_bytes. reflexivity.
  - destruct (Hrow r1) as [r3 [[Hbr3 _] Hr3]];
      [exact Hcfg | rewrite Hbr; reflexivity | rewrite Hbr; reflexivity |].
    rewrite Hr, ReadAll_loop_eq. unfold ReadAll_body. rewrite Hr3.
    destruct (ReadAll_loop_nothing_left r3
                (([] ++ read_rows cfg rows) ++ [row])) as [r4 Hr4].
    + rewrite Hbr3. reflexivity.
    + rewrite Hbr3, Hbr. reflexivity.
    + cbn [reader_on with_config rConfig]. fold (read_rows cfg rows).
      rewrite Hr4. reflexivity.
Qed.

Lemma ReadRow_delimited_then r cells tail :
  plain_delim (FieldDelim (rConfig r)) = true ->
  pending (br r) = delimited (rConfig r) cells ++ tail ->
  exists r2,
    br r2 = mkByteReader tail (at_end (br r))
    /\ rConfig r2 = rConfig r
    /\ ReadRow r = ReadRow_loop r2 (read_delimited (rConfig r) cells).
Proof.
  intros Hd Hp.
  destruct (ReadRow_loop_delimited cells [] r tail Hd Hp) as [r2 [[Hbr Hcfg] Hr]].
  exists r2. repeat split; assumption.
Qed.

(** For a plain delimiter and an input read from a [strings.Reader],
    which returns the zero byte with [io.EOF]: a last row without its
    newline is read all the same, when its last field is not empty. *)
Theorem ReadAll_last_row_without_newline cfg rows cells c :
  plain_delim (FieldDelim cfg) = true ->
  c <> [] ->
  row_of (Reader_ReadAll
            (reader_on cfg (written cfg rows ++ delimited cfg cells
                              ++ cell_bytes cfg c)))
  = (read_rows cfg rows ++ [read_delimited cfg cells ++ [read_back cfg c NUL]],
     None).
Proof.
  intros Hd Hne. apply ReadAll_written_then_row; [exact Hd|].
  intros r Hcfg Hfin Hp. subst cfg.
  destruct (ReadRow_delimited_then r cells _ Hd Hp) as [r2 [Hbr [Hcfg2 Hr]]].
  destruct (ReadRow_loop_last_cell_at_end r2
              (read_delimited (rConfig r) cells) c) as [r3 [[Hbr3 Hcfg3] Hr3]].
  - rewrite Hcfg2. exact Hd.
  - rewrite Hbr. exact Hfin.
  - rewrite Hbr, Hcfg2. reflexivity.
  - exact Hne.
  - exists r3. split.
    + split; [rewrite Hbr3, Hbr; reflexivity|rewrite Hcfg3; exact Hcfg2].
    + rewrite Hr, Hr3, Hcfg2. reflexivity.
Qed.

Lemma ReadAll_last_row_without_newline_witness :
  row_of (Reader_ReadAll
            (reader_on DefaultConfig
               (written DefaultConfig [[str "one"; str "two"]]
                  ++ delimited DefaultConfig [str "5"]
                  ++ cell_bytes DefaultConfig (str "6" ++ [CR]))))
  = (read_rows DefaultConfig [[str "one"; str "two"]]
       ++ [read_delimited DefaultConfig [str "5"]
             ++ [read_back DefaultConfig (str "6" ++ [CR]) NUL]],
     None).
Proof.
  apply (ReadAll_last_row_without_newline DefaultConfig
           [[str "one"; str "two"]] [str "5"] (str "6" ++ [CR])).
  - reflexivity.
  - discriminate.
Defined.

(** For a plain delimiter: when the input ends right after a delimiter,
    [ReadRow] returns the fields before it and one more empty field
    together with [io.EOF], and [ReadAll] leaves that row out of the
    table without any error. *)
Theorem ReadAll_drops_row_ending_in_delimiter cfg rows cells :
  plain_delim (FieldDelim cfg) = true ->
  cells <> [] ->
  row_of (ReadRow (reader_on cfg (delimited cfg cells)))
  = (read_delimited cfg cells ++ [[]], Some EOF)
  /\ row_of (Reader_ReadAll
               (reader_on cfg (written cfg rows ++ delimited cfg cells)))
     = (read_rows cfg rows, None).
Proof.
  intros Hd Hne.
  assert (Hrow : forall r, rConfig r = cfg -> at_end (br r) = EOF ->
            pending (br r) = delimited cfg cells ->
            exists r3, ReadRow r = (read_delimited cfg cells ++ [[]], Some EOF, r3)).
  { intros r Hcfg Hfin Hp. subst cfg.
    destruct (ReadRow_delimited_then r cells [] Hd) as [r2 [Hbr [Hcfg2 Hr]]];
      [rewrite app_nil_r; exact Hp|].
    destruct (ReadRow_loop_nothing_left r2 (read_delimited (rConfig r) cells))
      as [r3 [_ Hr3]]; [rewrite Hbr; reflexivity|rewrite Hbr; exact Hfin|].
    exists r3. rewrite Hr, Hr3.
    destruct cells as [|c cells]; [contradiction|]. reflexivity. }
  split.
  - destruct (Hrow (reader_on cfg (delimited cfg cells))) as [r3 Hr3];
      try reflexivity.
    rewrite Hr3. reflexivity.
  - rewrite (ReadAll_written_then_error cfg rows (delimited cfg cells)
               (read_delimited cfg cells ++ [[]]) EOF Hd Hrow).
    reflexivity.
Qed.

Lemma ReadAll_drops_row_ending_in_delimiter_witness :
  row_of (ReadRow (reader_on DefaultConfig (delimited DefaultConfig [str "a"])))
  = (read_delimited DefaultConfig [str "a"] ++ [[]], Some EOF)
  /\ row_of (Reader_ReadAll
               (reader_on DefaultConfig
                  (written DefaultConfig [[str "x"]]
                     ++ delimited DefaultConfig [str "a"])))
     = (read_rows DefaultConfig [[str "x"]], None).
Proof.
  apply (ReadAll_drops_row_ending_in_delimiter DefaultConfig
           [[str "x"]] [str "a"]).
  - reflexivity.
  - discriminate.
Defined.

(** A quoted field in the input: the opening quote, the content with its
    double-quotes doubled, the closing quote and [n] spaces. *)
Definition quoted_field (content : gostring) (n : nat) : gostring :=
  DQUOTE :: doubled content ++ DQUOTE :: repeat SPACE n.

Lemma parseCell_quoted_field_then r content n t rest :
  pending (br r) = quoted_field content n ++ t :: rest ->
  t <> SPACE ->
  (n = 0 -> t <> DQUOTE) ->
  parseCell r = (content, t, None, with_source r content rest).
Proof.
  intros Hp. apply parseCell_quoted_field.
  rewrite Hp. unfold quoted_field. cbn [app].
  rewrite <- app_assoc. reflexivity.
Qed.

(** A byte that cannot follow a quoted field: after the spaces, anything
    but the delimiter, the line feed, the carriage return and the zero
    byte is a format error.  [ReadRow] then returns no row, and [ReadAll]
    gives up the rows it had read. *)
Theorem ReadAll_byte_after_quoted_field cfg rows cells content n t rest :
  plain_delim (FieldDelim cfg) = true ->
  t <> SPACE -> t <> NUL -> t <> CR -> t <> LF -> t <> FieldDelim cfg ->
  (n = 0 -> t <> DQUOTE) ->
  row_of (ReadRow (reader_on cfg
            (delimited cfg cells ++ quoted_field content n ++ t :: rest)))
  = ([], Some (ErrExpected t))
  /\ row_of (Reader_ReadAll (reader_on cfg
               (written cfg rows ++ delimited cfg cells
                  ++ quoted_field content n ++ t :: rest)))
     = ([], Some (ErrExpected t)).
Proof.
  intros Hd Hsp Hnul Hcr Hlf Hdl Hq.
  assert (Hrow : forall r, rConfig r = cfg ->
            pending (br r)
              = delimited cfg cells ++ quoted_field content n ++ t :: rest ->
            exists r3, ReadRow r = ([], Some (ErrExpected t), r3)).
  { intros r Hcfg Hp. subst cfg.
    destruct (ReadRow_delimited_then r cells _ Hd Hp) as [r2 [Hbr [Hcfg2 Hr]]].
    assert (Hc : parseCell r2 = (content, t, None, with_source r2 content rest))
      by (apply (parseCell_quoted_field_then r2 content n t rest);
            [rewrite Hbr; reflexivity|assumption|assumption]).
    exists (with_source r2 content rest).
    rewrite Hr, (ReadRow_loop_after_cell r2 _ _ _ _ Hc) by assumption.
    cbn [with_source rConfig]. rewrite Hcfg2.
    apply Ascii.eqb_neq in Hdl, Hlf. rewrite Hdl, Hlf. reflexivity. }
  split.
  - destruct (Hrow (reader_on cfg
                (delimited cfg cells ++ quoted_field content n ++ t :: rest)))
      as [r3 Hr3]; try reflexivity.
    rewrite Hr3. reflexivity.
  - rewrite (ReadAll_written_then_error cfg rows _ [] (ErrExpected t) Hd);
      [reflexivity|].
    intros r Hcfg _ Hp. apply Hrow; assumption.
Qed.

Lemma ReadAll_byte_after_quoted_field_witness :
  let tail := quoted_field (str "b") 1 ++ "x"%char :: str ",c" ++ [LF] in
  row_of (ReadRow (reader_on DefaultConfig
            (delimited DefaultConfig [str "a"] ++ tail)))
  = ([], Some (ErrExpected "x"%char))
  /\ row_of (Reader_ReadAll (reader_on DefaultConfig
               (written DefaultConfig [[str "1"; str "2"]]
                  ++ delimited DefaultConfig [str "a"] ++ tail)))
     = ([], Some (ErrExpected "x"%char)).
Proof.
  apply (ReadAll_byte_after_quoted_field DefaultConfig
           [[str "1"; str "2"]] [str "a"] (str "b") 1 "x"%char
           (str ",c" ++ [LF])); try discriminate.
  reflexivity.
Defined.

(** An opening quote that is never closed: [ReadRow] returns the fields
    it had collected in the row together with [io.ErrUnexpectedEOF], and
    [ReadAll] returns that error and no rows. *)
Theorem ReadAll_unterminated_quote cfg rows cells body :
  plain_delim (FieldDelim cfg) = true ->
  no_closing_quote body ->
  row_of (ReadRow (reader_on cfg (delimited cfg cells ++ DQUOTE :: body)))
  = (read_delimited cfg cells, Some ErrUnexpectedEOF)
  /\ row_of (Reader_ReadAll (reader_on cfg
               (written cfg rows ++ delimited cfg cells ++ DQUOTE :: body)))
     = ([], Some ErrUnexpectedEOF).
Proof.
  intros Hd Hbody.
  assert (Hrow : forall r, rConfig r = cfg -> at_end (br r) = EOF ->
            pending (br r) = delimited cfg cells ++ DQUOTE :: body ->
            exists r3,
              ReadRow r = (read_delimited cfg cells, Some ErrUnexpectedEOF, r3)).
  { intros r Hcfg Hfin Hp. subst cfg.
    destruct (ReadRow_delimited_then r cells _ Hd Hp) as [r2 [Hbr [Hcfg2 Hr]]].
    assert (Hc : exists r3,
               parseCell r2 = ([], NUL, Some ErrUnexpectedEOF, r3)).
    { rewrite (parseCell_at_quote r2 body) by (rewrite Hbr; reflexivity).
      unfold parseQuoted. cbn [with_source br pending at_end].
      destruct (parseQuoted_loop_unclosed (at_end (br r2)) body Hbody [])
        as [buf' Hl].
      rewrite Hl, Hbr. cbn [at_end]. rewrite Hfin. eexists. reflexivity. }
    destruct Hc as [r3 Hc]. exists r3.
    rewrite Hr, ReadRow_loop_eq. unfold ReadRow_body. rewrite Hc. reflexivity. }
  split.
  - destruct (Hrow (reader_on cfg (delimited cfg cells ++ DQUOTE :: body)))
      as [r3 Hr3]; try reflexivity.
    rewrite Hr3. reflexivity.
  - rewrite (ReadAll_written_then_error cfg rows _ _ ErrUnexpectedEOF Hd Hrow).
    reflexivity.
Qed.

Lemma ReadAll_unterminated_quote_witness :
  row_of (ReadRow (reader_on DefaultConfig
            (delimited DefaultConfig [str "a"] ++ DQUOTE :: str "b,c")))
  = (read_delimited DefaultConfig [str "a"], Some ErrUnexpectedEOF)
  /\ row_of (Reader_ReadAll (reader_on DefaultConfig
               (written DefaultConfig [[str "1"]]
                  ++ delimited DefaultConfig [str "a"] ++ DQUOTE :: str "b,c")))
     = ([], Some ErrUnexpectedEOF).
Proof.
  apply (ReadAll_unterminated_quote DefaultConfig [[str "1"]] [str "a"]
           (str "b,c")).
  - reflexivity.
  - apply (doubled_no_closing_quote (str "b,c")).
Defined.

(** A carriage return after a quoted field at the very end of the input:
    the read after it fails with [io.EOF], [ReadRow] returns that with no
    row, and [ReadAll] ends the table without the row and without an
    error. *)
Theorem ReadAll_loses_row_at_final_carriage_return cfg rows cells content n :
  plain_delim (FieldDelim cfg) = true ->
  row_of (ReadRow (reader_on cfg
            (delimited cfg cells ++ quoted_field content n ++ [CR])))
  = ([], Some EOF)
  /\ row_of (Reader_ReadAll (reader_on cfg
               (written cfg rows ++ delimited cfg cells
                  ++ quoted_field content n ++ [CR])))
     = (read_rows cfg rows, None).
Proof.
  intros Hd.
  assert (Hrow : forall r, rConfig r = cfg -> at_end (br r) = EOF ->
            pending (br r) = delimited cfg cells ++ quoted_field content n ++ [CR] ->
            exists r3, ReadRow r = ([], Some EOF, r3)).
  { intros r Hcfg Hfin Hp. subst cfg.
    destruct (ReadRow_delimited_then r cells _ Hd Hp) as [r2 [Hbr [Hcfg2 Hr]]].
    assert (Hc : parseCell r2 = (content, CR, None, with_source r2 content []))
      by (apply (parseCell_quoted_field_then r2 content n CR []);
            [rewrite Hbr; reflexivity|discriminate|discriminate]).
    eexists.
    rewrite Hr, ReadRow_loop_eq. unfold ReadRow_body. rewrite Hc.
    change (CR =? NUL)%char with false. change (CR =? CR)%char with true.
    cbn iota. unfold ReadByte. cbn [with_source br pending at_end read_byte].
    rewrite Hbr. cbn [at_end]. rewrite Hfin. reflexivity. }
  split.
  - destruct (Hrow (reader_on cfg
                (delimited cfg cells ++ quoted_field content n ++ [CR])))
      as [r3 Hr3]; try reflexivity.
    rewrite Hr3. reflexivity.
  - rewrite (ReadAll_written_then_error cfg rows _ [] EOF Hd Hrow).
    reflexivity.
Qed.

Lemma ReadAll_loses_row_at_final_carriage_return_witness :
  row_of (ReadRow (reader_on DefaultConfig
            (delimited DefaultConfig [str "a"] ++ quoted_field (str "b") 0 ++ [CR])))
  = ([], Some EOF)
  /\ row_of (Reader_ReadAll (reader_on DefaultConfig
               (written DefaultConfig [[str "1"]]
                  ++ delimited DefaultConfig [str "a"]
                  ++ quoted_field (str "b") 0 ++ [CR])))
     = (read_rows DefaultConfig [[str "1"]], None).
Proof.
  apply (ReadAll_loses_row_at_final_carriage_return DefaultConfig
           [[str "1"]] [str "a"] (str "b") 0).
  reflexivity.
Defined.

(** A zero byte after a quoted field ends the row like the end of the
    input does: [ReadRow] returns the row with no error and leaves the
    bytes after the zero byte for the next call. *)
Theorem ReadRow_zero_byte_after_quoted_field r cells content n rest :
  plain_delim (FieldDelim (rConfig r)) = true ->
  pending (br r)
    = delimited (rConfig r) cells ++ quoted_field content n ++ NUL :: rest ->
  exists r',
    ReadRow r = (read_delimited (rConfig r) cells ++ [content], None, r')
    /\ br r' = mkByteReader rest (at_end (br r))
    /\ rConfig r' = rConfig r.
Proof.
  intros Hd Hp.
  destruct (ReadRow_delimited_then r cells _ Hd Hp) as [r2 [Hbr [Hcfg2 Hr]]].
  assert (Hc : parseCell r2 = (content, NUL, None, with_source r2 content rest))
    by (apply (parseCell_quoted_field_then r2 content n NUL rest);
          [rewrite Hbr; reflexivity|discriminate|discriminate]).
  exists (with_source r2 content rest). split; [|split].
  - rewrite Hr, ReadRow_loop_eq. unfold ReadRow_body. rewrite Hc. reflexivity.
  - cbn [with_source br]. rewrite Hbr. reflexivity.
  - exact Hcfg2.
Qed.

Lemma ReadRow_zero_byte_after_quoted_field_witness :
  let r := reader_on DefaultConfig
             (delimited DefaultConfig [str "a"] ++ quoted_field (str "b") 2
                ++ NUL :: str "c,d") in
  exists r',
    ReadRow r = (read_delimited DefaultConfig [str "a"] ++ [str "b"], None, r')
    /\ br r' = mkByteReader (str "c,d") (at_end (br r))
    /\ rConfig r' = rConfig r.
Proof.
  apply (ReadRow_zero_byte_after_quoted_field
           (reader_on DefaultConfig
              (delimited DefaultConfig [str "a"] ++ quoted_field (str "b") 2
                 ++ NUL :: str "c,d"))
           [str "a"] (str "b") 2 (str "c,d")).
  - reflexivity.
  - reflexivity.
Defined.

(* ===================================================================== *)
(** ** More on the cell writer and the cell scanner                       *)
(* ===================================================================== *)

(** With a delimiter below 0x80 the quoting decision is a test on the
    bytes of the field: a space at either end, or a newline, a
    double-quote, a tab or the delimiter anywhere.  A field that passes
    none of them, carriage returns or not, is written as it is; the
    others are written between quotes with their double-quotes doubled. *)
Theorem writeCell_with_ascii_delimiter cfg sink cell :
  (byte_val (FieldDelim cfg) < 0x80)%Z ->
  needsQuotes cfg cell
  = edge_space cell || existsb (special (FieldDelim cfg)) cell
  /\ writeCell (mkWriter sink cfg) cell
     = (None,
        mkWriter (sink ++ if needsQuotes cfg cell
                          then DQUOTE :: doubled cell ++ [DQUOTE] else cell)
                 cfg).
Proof.
  intros Hd. split.
  - apply needsQuotes_ascii, Hd.
  - rewrite writeCell_out. reflexivity.
Qed.

Lemma writeCell_with_ascii_delimiter_witness :
  let cell := str "a" ++ [CR] ++ str "b" in
  needsQuotes DefaultConfig cell
  = edge_space cell || existsb (special (FieldDelim DefaultConfig)) cell
  /\ writeCell (mkWriter (str "x,") DefaultConfig) cell
     = (None,
        mkWriter (str "x," ++ if needsQuotes DefaultConfig cell
                              then DQUOTE :: doubled cell ++ [DQUOTE] else cell)
                 DefaultConfig).
Proof.
  apply (writeCell_with_ascii_delimiter DefaultConfig (str "x,")
           (str "a" ++ [CR] ++ str "b")).
  reflexivity.
Defined.

(** Writing only appends: what the sink held stays in front, the bytes
    added do not depend on it, and a table written in two parts gives the
    bytes of the first part followed by those of the second. *)
Theorem Writer_WriteAll_appends w rows1 rows2 :
  Writer_WriteAll w (rows1 ++ rows2)
  = Writer_WriteAll (snd (Writer_WriteAll w rows1)) rows2
  /\ out (snd (Writer_WriteAll w (rows1 ++ rows2)))
     = out w ++ written (wConfig w) rows1 ++ written (wConfig w) rows2.
Proof.
  rewrite !written_table_bytes, !Writer_WriteAll_out. cbn [snd out wConfig].
  unfold table_bytes. rewrite flat_map_app, <- !app_assoc. split; reflexivity.
Qed.

(** With trimming on, an unquoted field comes without the spaces before
    it and without the spaces and carriage returns after it, and with
    everything in between. *)
Theorem parseCell_trims_unquoted_field r n core ws t rest :
  TrimSpaces (rConfig r) = true ->
  pending (br r) = repeat SPACE n ++ core ++ ws ++ t :: rest ->
  Forall (fun b => b = SPACE \/ b = CR) ws ->
  Forall (copied (rConfig r)) (core ++ ws) ->
  stops (rConfig r) t ->
  hd t (core ++ ws) <> SPACE ->
  hd t (core ++ ws) <> DQUOTE ->
  last core NUL <> SPACE -> last core NUL <> CR ->
  parseCell r = (core, t, None, with_source r (core ++ ws) rest).
Proof.
  intros Htrim Hp Hws Hbody Ht Hsp Hdq Hls Hlc.
  rewrite (parseCell_trim_leading r n _ Htrim Hp).
  assert (Hcount : count_trailing (rConfig r) 0 (core ++ ws) = length ws).
  { assert (Hrun : forall k, count_trailing (rConfig r) k ws = k + length ws).
    { clear - Htrim Hws.
      induction Hws as [|b ws Hb _ IH]; intros k; [cbn; lia|].
      cbn [count_trailing length]. rewrite Htrim.
      assert (E : ((b =? SPACE)%char || (b =? CR)%char) = true)
        by (destruct Hb as [->| ->]; reflexivity).
      rewrite E, IH. lia. }
    rewrite count_trailing_app, (count_trailing_none _ core Hls Hlc), Hrun.
    reflexivity. }
  assert (Hcut : cut_off (rConfig r) (core ++ ws) t = length ws).
  { unfold cut_off. rewrite Hcount.
    destruct ws as [|b ws].
    - rewrite app_nil_r. apply Ascii.eqb_neq in Hlc. rewrite Hlc. reflexivity.
    - cbn [length Nat.eqb]. rewrite andb_false_r. reflexivity. }
  rewrite (parseCell_unquoted (with_source r (tmpbuf r) (core ++ ws ++ t :: rest))
             (core ++ ws) t rest).
  - cbn [with_source rConfig]. rewrite Hcut, length_app.
    replace (length core + length ws - length ws) with (length core) by lia.
    rewrite firstn_app, Nat.sub_diag, firstn_all. cbn [firstn].
    rewrite app_nil_r. reflexivity.
  - cbn [with_source br pending]. rewrite <- app_assoc. reflexivity.
  - exact Hbody.
  - exact Ht.
  - exact Hdq.
  - intros _. exact Hsp.
Qed.

Lemma parseCell_trims_unquoted_field_witness :
  let r := reader_on (mkConfig true COMMA) (str "   two words " ++ [CR] ++ str " ,x") in
  parseCell r
  = (str "two words", COMMA, None,
     with_source r (str "two words" ++ (str " " ++ [CR] ++ str " ")) (str "x")).
Proof.
  apply (parseCell_trims_unquoted_field
           (reader_on (mkConfig true COMMA)
              (str "   two words " ++ [CR] ++ str " ,x"))
           3 (str "two words") (str " " ++ [CR] ++ str " ") COMMA (str "x")).
  - reflexivity.
  - reflexivity.
  - repeat (constructor; [first [left; reflexivity | right; reflexivity]|]).
    constructor.
  - repeat (constructor; [split; discriminate|]). constructor.
  - right; reflexivity.
  - discriminate.
  - discriminate.
  - discriminate.
  - discriminate.
Defined.

(** With trimming off, an unquoted field comes byte for byte, spaces and
    inner double-quotes included; only a carriage return right before the
    line feed is left out. *)
Theorem parseCell_keeps_unquoted_field r body t rest :
  TrimSpaces (rConfig r) = false ->
  pending (br r) = body ++ t :: rest ->
  Forall (copied (rConfig r)) body ->
  stops (rConfig r) t ->
  hd t body <> DQUOTE ->
  parseCell r
  = (if (last body NUL =? CR)%char && (t =? LF)%char
     then removelast body else body,
     t, None, with_source r body rest).
Proof.
  intros Htrim Hp Hbody Ht Hdq.
  rewrite (parseCell_unquoted r body t rest Hp Hbody Ht Hdq)
    by (rewrite Htrim; discriminate).
  unfold cut_off. rewrite (count_trailing_off _ body 0 Htrim).
  cbn [Nat.eqb]. rewrite andb_true_r.
  destruct ((last body NUL =? CR)%char && (t =? LF)%char).
  - rewrite removelast_firstn_len.
    replace (Nat.pred (length body)) with (length body - 1) by lia.
    reflexivity.
  - rewrite Nat.sub_0_r, firstn_all. reflexivity.
Qed.

Lemma parseCell_keeps_unquoted_field_witness :
  let body := str "  say " ++ [DQUOTE] ++ str "hi" ++ [DQUOTE; SPACE; CR] in
  let r := str2Reader (body ++ LF :: str "next") in
  parseCell r
  = (if (last body NUL =? CR)%char && (LF =? LF)%char
     then removelast body else body,
     LF, None, with_source r body (str "next")).
Proof.
  apply (parseCell_keeps_unquoted_field
           (str2Reader ((str "  say " ++ [DQUOTE] ++ str "hi" ++ [DQUOTE; SPACE; CR])
                          ++ LF :: str "next"))
           (str "  say " ++ [DQUOTE] ++ str "hi" ++ [DQUOTE; SPACE; CR])
           LF (str "next")).
  - reflexivity.
  - reflexivity.
  - repeat (constructor; [split; discriminate|]). constructor.
  - left; reflexivity.
  - discriminate.
Defined.

(* ===================================================================== *)
(** ** What [ReadRow] and [ReadAll] return                                *)
(* ===================================================================== *)

Lemma ReadRow_body_fields r acc :
  match ReadRow_body r acc with
  | RowReturn res None _ => exists c, res = acc ++ [c]
  | RowReturn _ (Some _) _ => True
  | RowContinue res _ => exists c, res = acc ++ [c]
  end.
Proof.
  unfold ReadRow_body.
  destruct (parseCell r) as [[[c b] e] r1].
  destruct e as [err|]; [exact I|].
  destruct (b =? NUL)%char; [exists c; reflexivity|].
  destruct (if (b =? CR)%char then ReadByte (br r1) else (b, None, br r1))
    as [[b2 e2] rd2].
  destruct e2 as [err|]; [exact I|]. cbn [rConfig].
  destruct (b2 =? FieldDelim (rConfig r1))%char; [exists c; reflexivity|].
  destruct (b2 =? LF)%char; [exists c; reflexivity|exact I].
Qed.

Lemma ReadRow_loop_fields r : forall acc res r',
  ReadRow_loop r acc = (res, None, r') ->
  exists cs, cs <> [] /\ res = acc ++ cs.
Proof.
  remember (length (pending (br r))) as n eqn:Hn.
  revert r Hn. induction n as [n IH] using lt_wf_ind.
  intros r Hn acc res r'. rewrite ReadRow_loop_eq.
  pose proof (ReadRow_body_fields r acc) as Hf.
  destruct (ReadRow_body r acc) as [res1 e1 r1|res1 r1] eqn:Hb.
  - intros H; inversion H; subst. destruct Hf as [c ->].
    exists [c]. split; [discriminate|reflexivity].
  - destruct Hf as [c ->]. apply ReadRow_body_continue in Hb. intros H.
    destruct (IH (length (pending (br r1))) ltac:(lia) r1 eq_refl _ _ _ H)
      as [cs [_ ->]].
    exists (c :: cs). split; [discriminate|].
    rewrite <- app_assoc. reflexivity.
Qed.

(** A [ReadRow] that returns no error returns at least one field and has
    consumed at least one byte. *)
Theorem ReadRow_success_has_field_and_consumes r row r' :
  ReadRow r = (row, None, r') ->
  row <> []
  /\ length (pending (br r')) < length (pending (br r)).
Proof.
  unfold ReadRow. intros H. split.
  - destruct (ReadRow_loop_fields r [] row r' H) as [cs [Hne ->]]. exact Hne.
  - eapply ReadRow_loop_consumes; exact H.
Qed.

Lemma ReadRow_success_has_field_and_consumes_witness :
  let r := str2Reader (str "a,b" ++ [LF] ++ str "c") in
  [str "a"; str "b"] <> []
  /\ length (pending (br (with_source r (str "b") (str "c"))))
     < length (pending (br r)).
Proof.
  apply (ReadRow_success_has_field_and_consumes
           (str2Reader (str "a,b" ++ [LF] ++ str "c")) [str "a"; str "b"]
           (with_source (str2Reader (str "a,b" ++ [LF] ++ str "c"))
              (str "b") (str "c"))).
  reflexivity.
Defined.

Lemma ReadAll_loop_result r : forall acc rows e r',
  ReadAll_loop r acc = (rows, e, r') ->
  (e = None /\ exists new, rows = acc ++ new /\ Forall (fun row => row <> []) new)
  \/ (rows = [] /\ exists err, e = Some err /\ err <> EOF).
Proof.
  remember (length (pending (br r))) as n eqn:Hn.
  revert r Hn. induction n as [n IH] using lt_wf_ind.
  intros r Hn acc rows e r'. rewrite ReadAll_loop_eq.
  destruct (ReadAll_body r acc) as [rows1 e1 r1|rows1 r1] eqn:Hb.
  - intros H; inversion H; subst. revert Hb. unfold ReadAll_body.
    destruct (ReadRow r) as [[row er] rr].
    destruct er as [err|]; [|discriminate].
    destruct (is_EOF err) eqn:E; intros Hb; inversion Hb; subst.
    + left. split; [reflexivity|]. exists []. rewrite app_nil_r.
      split; [reflexivity|constructor].
    + right. split; [reflexivity|]. exists err. split; [reflexivity|].
      intros ->. discriminate E.
  - intros H. pose proof (ReadAll_body_continue _ _ _ _ Hb) as Hlt.
    revert Hb. unfold ReadAll_body.
    destruct (ReadRow r) as [[row er] rr] eqn:Hr.
    destruct er as [err|]; [destruct (is_EOF err); discriminate|].
    intros Hb; inversion Hb; subst.
    assert (Hne : row <> []).
    { destruct (ReadRow_loop_fields r [] row r1 Hr) as [cs [Hcs Heq]].
      rewrite Heq. exact Hcs. }
    destruct (IH (length (pending (br r1))) Hlt r1 eq_refl _ _ _ _ H)
      as [[-> [new [-> Hnew]]]|Herr].
    + left. split; [reflexivity|]. exists (row :: new).
      rewrite <- app_assoc. split; [reflexivity|].
      constructor; assumption.
    + right. exact Herr.
Qed.

(** [Reader.ReadAll] returns either no error and rows that all have at
    least one field, or an error other than [io.EOF] and no rows at all. *)
Theorem ReadAll_rows_or_error r rows e r' :
  Reader_ReadAll r = (rows, e, r') ->
  (e = None /\ Forall (fun row => row <> []) rows)
  \/ (rows = [] /\ exists err, e = Some err /\ err <> EOF).
Proof.
  unfold Reader_ReadAll. intros H.
  destruct (ReadAll_loop_result r [] rows e r' H) as [[He [new [-> Hnew]]]|Herr].
  - left. split; assumption.
  - right. exact Herr.
Qed.

Lemma ReadAll_rows_or_error_witness :
  let r := str2Reader (str "a,b" ++ [LF; DQUOTE] ++ str "c") in
  (Some ErrUnexpectedEOF = None /\ Forall (fun row : list gostring => row <> []) [])
  \/ (@nil (list gostring) = []
      /\ exists err, Some ErrUnexpectedEOF = Some err /\ err <> EOF).
Proof.
  apply (ReadAll_rows_or_error
           (str2Reader (str "a,b" ++ [LF; DQUOTE] ++ str "c"))
           [] (Some ErrUnexpectedEOF)
           (snd (Reader_ReadAll
                   (str2Reader (str "a,b" ++ [LF; DQUOTE] ++ str "c"))))).
  reflexivity.
Defined.

(* ===================================================================== *)
(** ** Inputs without double-quotes                                       *)
(* ===================================================================== *)

(** The loop over spaces stops at a byte of the input or at its end. *)
Lemma eat_spaces_outcome fin p : forall b,
  match eat_spaces fin b None p with
  | (b', e', p') =>
      (e' = None /\ exists pre, b :: p = pre ++ b' :: p')
      \/ (e' = Some fin /\ b' = NUL /\ p' = [])
  end.
Proof.
  induction p as [|x p IH]; intros b; cbn [eat_spaces].
  - destruct (b =? SPACE)%char; cbn [andb is_nil].
    + right. repeat split.
    + left. split; [reflexivity|]. exists []. reflexivity.
  - destruct (b =? SPACE)%char; cbn [andb is_nil].
    + specialize (IH x).
      destruct (eat_spaces fin x None p) as [[b' e'] p'].
      destruct IH as [[He [pre Hpre]]|H]; [left|right; exact H].
      split; [exact He|]. exists (b :: pre). cbn [app]. rewrite Hpre. reflexivity.
    + left. split; [reflexivity|]. exists []. reflexivity.
Qed.

(** The unquoted loop stops at a newline or a delimiter of the input, or
    at its end. *)
Lemma scan_unquoted_outcome cfg fin p : forall n l buf b,
  match scan_unquoted cfg fin n l buf b None p with
  | (_, _, _, b', e', p') =>
      (e' = None /\ stops cfg b' /\ exists pre, b :: p = pre ++ b' :: p')
      \/ (e' = Some fin /\ b' = NUL /\ p' = [])
  end.
Proof.
  induction p as [|x p IH]; intros n l buf b; cbn [scan_unquoted is_nil andb].
  - destruct (Ascii.eqb_spec b LF) as [->|Hlf]; cbn [negb andb].
    { left. split; [reflexivity|]. split; [left; reflexivity|].
      exists []. reflexivity. }
    destruct (Ascii.eqb_spec b (FieldDelim cfg)) as [->|Hd]; cbn [negb].
    { left. split; [reflexivity|]. split; [right; reflexivity|].
      exists []. reflexivity. }
    right. repeat split.
  - destruct (Ascii.eqb_spec b LF) as [->|Hlf]; cbn [negb andb].
    { left. split; [reflexivity|]. split; [left; reflexivity|].
      exists []. reflexivity. }
    destruct (Ascii.eqb_spec b (FieldDelim cfg)) as [->|Hd]; cbn [negb].
    { left. split; [reflexivity|]. split; [right; reflexivity|].
      exists []. reflexivity. }
    match goal with |- context [scan_unquoted cfg fin ?n' ?l' ?buf' x None p] =>
      specialize (IH n' l' buf' x);
      destruct (scan_unquoted cfg fin n' l' buf' x None p)
        as [[[[[n2 l2] buf2] b'] e'] p'] end.
    destruct IH as [[He [Hs [pre Hpre]]]|H]; [left|right; exact H].
    split; [exact He|]. split; [exact Hs|].
    exists (b :: pre). cbn [app]. rewrite Hpre. reflexivity.
Qed.

(** A reader with the configuration [cfg], at a point where no
    double-quote is left to read, over a source that ends with [io.EOF]. *)
Definition quote_free (cfg : Config) (r : Reader) : Prop :=
  rConfig r = cfg /\ at_end (br r) = EOF /\ ~ In DQUOTE (pending (br r)).

Lemma not_In_suffix (pre : gostring) b p q :
  q = pre ++ b :: p -> ~ In DQUOTE q -> b <> DQUOTE /\ ~ In DQUOTE p.
Proof.
  intros -> H. split.
  - intros ->. apply H, in_or_app. right. left. reflexivity.
  - intros Hp. apply H, in_or_app. right. right. exact Hp.
Qed.

Lemma parseCell_quote_free cfg r :
  quote_free cfg r ->
  match parseCell r with
  | (_, b, e, r') =>
      quote_free cfg r'
      /\ ((e = None /\ (stops cfg b \/ b = NUL)) \/ e = Some EOF)
  end.
Proof.
  intros [Hcfg [Hfin Hq]]. unfold parseCell. rewrite Hfin.
  destruct (pending (br r)) as [|x p] eqn:Hp; cbn [read_byte].
  - destruct (TrimSpaces (rConfig r)); simpl;
      (split; [|right; reflexivity]);
      (repeat split; [exact Hcfg|exact Hfin|intros []]).
  - match goal with |- context [if TrimSpaces ?c then ?a else ?b] =>
      assert (Hlead : match (if TrimSpaces c then a else b) with
                      | (b1, e1, p1) =>
                          (e1 = None /\ b1 <> DQUOTE /\ ~ In DQUOTE p1)
                          \/ (e1 = Some EOF /\ b1 = NUL /\ p1 = [])
                      end);
      [|destruct (if TrimSpaces c then a else b) as [[b1 e1] p1]] end.
    { destruct (TrimSpaces (rConfig r)).
      - pose proof (eat_spaces_outcome EOF p x) as Ho.
        destruct (eat_spaces EOF x None p) as [[b1 e1] p1].
        destruct Ho as [[He [pre Hpre]]|H]; [left|right; exact H].
        split; [exact He|]. eapply not_In_suffix; eassumption.
      - left. split; [reflexivity|].
        apply (not_In_suffix [] x p (x :: p) eq_refl Hq). }
    destruct Hlead as [[-> [Hb1 Hp1]]|[-> [-> ->]]].
    + cbn [eq_EOF is_nil]. apply Ascii.eqb_neq in Hb1 as Hb1'. rewrite Hb1'.
      cbn [andb].
      pose proof (scan_unquoted_outcome (rConfig r) EOF p1 0 NUL [] b1) as Ho.
      destruct (scan_unquoted (rConfig r) EOF 0 NUL [] b1 None p1)
        as [[[[[n2 l2] buf2] b'] e'] p'].
      destruct Ho as [[-> [Hs [pre Hpre]]]|[-> [-> ->]]]; cbn [is_nil negb andb eq_EOF is_EOF].
      * split; [|left; split; [reflexivity|left; rewrite <- Hcfg; exact Hs]].
        repeat split; [exact Hcfg|exact Hfin|].
        cbn [with_source br pending].
        assert (Hq1 : ~ In DQUOTE (b1 :: p1))
          by (intros [H|H]; [apply Hb1; exact H|apply Hp1, H]).
        apply (not_In_suffix pre b' p' (b1 :: p1) Hpre Hq1).
      * split; [|left; split; [reflexivity|right; reflexivity]].
        repeat split; [exact Hcfg|exact Hfin|intros []].
    + cbn [eq_EOF is_EOF]. split; [|right; reflexivity].
      repeat split; [exact Hcfg|exact Hfin|intros []].
Qed.

Lemma ReadRow_body_quote_free cfg r acc :
  FieldDelim cfg <> CR ->
  quote_free cfg r ->
  match ReadRow_body r acc with
  | RowReturn _ e r' => quote_free cfg r' /\ (e = None \/ e = Some EOF)
  | RowContinue _ r' => quote_free cfg r'
  end.
Proof.
  intros Hcr Hq. pose proof (parseCell_quote_free cfg r Hq) as Hc.
  unfold ReadRow_body.
  destruct (parseCell r) as [[[c b] e] r1].
  destruct Hc as [Hq1 [[-> Hb] | -> ]]; [|split; [exact Hq1|right; reflexivity]].
  destruct (Ascii.eqb_spec b NUL) as [->|Hnul];
    [split; [exact Hq1|left; reflexivity]|].
  destruct Hb as [Hs|Hb]; [|contradiction].
  assert (Hbcr : (b =? CR)%char = false).
  { apply Ascii.eqb_neq. intros ->. destruct Hs as [Hs|Hs]; [discriminate Hs|].
    apply Hcr. symmetry. exact Hs. }
  rewrite Hbcr. cbn [rConfig]. rewrite Reader_eta.
  destruct Hq1 as [Hcfg1 Hrest]. rewrite Hcfg1.
  destruct (Ascii.eqb_spec b (FieldDelim cfg)) as [->|Hd];
    [split; [exact Hcfg1|exact Hrest]|].
  destruct Hs as [->|Hs]; [|contradiction].
  cbn. split; [split; [exact Hcfg1|exact Hrest]|left; reflexivity].
Qed.

Lemma ReadRow_loop_quote_free cfg r : forall acc res e r',
  FieldDelim cfg <> CR ->
  quote_free cfg r ->
  ReadRow_loop r acc = (res, e, r') ->
  quote_free cfg r' /\ (e = None \/ e = Some EOF).
Proof.
  remember (length (pending (br r))) as n eqn:Hn.
  revert r Hn. induction n as [n IH] using lt_wf_ind.
  intros r Hn acc res e r' Hcr Hq. rewrite ReadRow_loop_eq.
  pose proof (ReadRow_body_quote_free cfg r acc Hcr Hq) as Hb.
  destruct (ReadRow_body r acc) as [res1 e1 r1|res1 r1] eqn:E.
  - intros H; inversion H; subst. exact Hb.
  - apply ReadRow_body_continue in E. intros H.
    apply (IH (length (pending (br r1))) ltac:(lia) r1 eq_refl _ _ _ _ Hcr Hb H).
Qed.

Lemma ReadAll_loop_quote_free cfg r : forall acc rows e r',
  FieldDelim cfg <> CR ->
  quote_free cfg r ->
  ReadAll_loop r acc = (rows, e, r') ->
  e = None.
Proof.
  remember (length (pending (br r))) as n eqn:Hn.
  revert r Hn. induction n as [n IH] using lt_wf_ind.
  intros r Hn acc rows e r' Hcr Hq. rewrite ReadAll_loop_eq.
  destruct (ReadAll_body r acc) as [rows1 e1 r1|rows1 r1] eqn:Hb.
  - intros H; inversion H; subst. revert Hb. unfold ReadAll_body, ReadRow.
    destruct (ReadRow_loop r []) as [[row er] rr] eqn:Hr.
    destruct (ReadRow_loop_quote_free cfg r _ _ _ _ Hcr Hq Hr) as [_ [ -> | -> ]];
      [discriminate|].
    cbn [is_EOF]. intros Hb; inversion Hb; reflexivity.
  - intros H. pose proof (ReadAll_body_continue _ _ _ _ Hb) as Hlt.
    revert Hb. unfold ReadAll_body, ReadRow.
    destruct (ReadRow_loop r []) as [[row er] rr] eqn:Hr.
    destruct (ReadRow_loop_quote_free cfg r _ _ _ _ Hcr Hq Hr) as [Hq1 _].
    destruct er as [err|]; [destruct (is_EOF err); discriminate|].
    intros Hb; inversion Hb; subst.
    apply (IH (length (pending (br r1))) Hlt r1 eq_refl _ _ _ _ Hcr Hq1 H).
Qed.

(** An input without any double-quote, read from a [strings.Reader]
    (which returns the zero byte with [io.EOF]), is never refused:
    whatever its bytes and whatever the configuration, as long as the
    delimiter is not the carriage return, [Reader.ReadAll] returns no
    error. *)
Theorem ReadAll_without_quotes_never_fails cfg input :
  FieldDelim cfg <> CR ->
  ~ In DQUOTE input ->
  snd (row_of (Reader_ReadAll (reader_on cfg input))) = None.
Proof.
  intros Hcr Hq. unfold Reader_ReadAll.
  destruct (ReadAll_loop (reader_on cfg input) []) as [[rows e] r'] eqn:H.
  cbn [row_of fst snd].
  apply (ReadAll_loop_quote_free cfg (reader_on cfg input) [] rows e r' Hcr);
    [|exact H].
  split; [reflexivity|split; [reflexivity|exact Hq]].
Qed.

Lemma ReadAll_without_quotes_never_fails_witness :
  snd (row_of (Reader_ReadAll
                 (reader_on (mkConfig true ";"%char)
                    (str " a;;" ++ [CR; CR; LF; LF; NUL; TAB] ++ str ";b ; "))))
  = None.
Proof.
  apply (ReadAll_without_quotes_never_fails (mkConfig true ";"%char)
           (str " a;;" ++ [CR; CR; LF; LF; NUL; TAB] ++ str ";b ; ")).
  - discriminate.
  - intros H. cbn in H.
    repeat (destruct H as [H|H]; [discriminate H|]). exact H.
Defined.

(* ===================================================================== *)
(** ** A byte source that fails                                           *)
(* ===================================================================== *)



